(** * Stockfish worker pool (thread.cpp, thread.h) and session wrapper

    A shallow embedding of the thread-pool core of the engine and of the
    pipe-based session wrapper, with the properties of the written
    specification proved (or refuted) against it.

    Conventions.
    - [Value], [Depth] and [Move] are C++ [int]s; they are carried as [Z]
      and every arithmetic operation of the source is followed by the
      two's-complement wrap of its C++ result type ([int32], [int64]).
    - [std::vector] is a [list], [std::map<Move,int64_t>] a [gmap Z Z],
      a [std::unique_ptr] handle an [option].
    - A pointer to a pool thread is its slot number in the pool vector;
      the vector owns its threads as in thread.cpp ([std::unique_ptr]),
      so that [pop_back] destroys the thread it removes.
    - Undefined behaviour (indexing an empty vector, [front()] of an empty
      vector, a bad downcast) is an explicit result, never a default.
    - The UCI options of ucioption.cpp are embedded in the module [UCI],
      [Tune::next] of tune.cpp in the module [Tune]; a [std::string] is
      a [string], a [char] an [ascii]. *)

From Stdlib Require Import ZArith List Bool Lia QArith Ascii String Sorted
  DecimalString.
From stdpp Require Import base option list gmap strings.

Open Scope Z_scope.

(** ** Machine integers *)

Definition int32 (z : Z) : Z := (z + 2 ^ 31) `mod` 2 ^ 32 - 2 ^ 31.
Definition int64 (z : Z) : Z := (z + 2 ^ 63) `mod` 2 ^ 64 - 2 ^ 63.

Definition in_int32 (z : Z) : Prop := - 2 ^ 31 ≤ z < 2 ^ 31.
Definition in_int64 (z : Z) : Prop := - 2 ^ 63 ≤ z < 2 ^ 63.

Definition bool_to_int (b : bool) : Z := if b then 1 else 0.

#[global] Arguments int32 : simpl never.
#[global] Arguments int64 : simpl never.

(** ** Constants of types.h

    types.h is not part of the sources at hand; thread.cpp uses the
    constants below, which are therefore parameters of the development. *)

Class Types_h := {
  VALUE_NONE : Z;
  VALUE_INFINITE : Z;
  VALUE_TB_WIN_IN_MAX_PLY : Z;
  VALUE_TB_LOSS_IN_MAX_PLY : Z;
  MAX_PLY : Z;
  MOVE_NONE : Z
}.

(** The values these constants have in the upstream engine of the same
    year; used to instantiate the parametric results. *)
Definition upstream_types_h : Types_h := {|
  VALUE_NONE := 32002;
  VALUE_INFINITE := 32001;
  VALUE_TB_WIN_IN_MAX_PLY := 32000 - 2 * 246;
  VALUE_TB_LOSS_IN_MAX_PLY := - (32000 - 2 * 246);
  MAX_PLY := 246;
  MOVE_NONE := 0
|}.

(** ** External collaborators

    Board representation, move generation, the endgame tables and the
    search-tuning code are outside the pool; the pool only calls them. *)

(** [Search::RootMove]: the fields thread.cpp reads. *)
Record RootMove := { score : Z; pv : list Z }.

Class Collaborators := {
  Position : Type;
  StateInfo : Type;
  LimitsType : Type;
  (** [limits.searchmoves] *)
  searchmoves : LimitsType → list Z;
  (** [MoveList<LEGAL>(pos)], in generation order *)
  MoveList_LEGAL : Position → list Z;
  (** [rootMoves.emplace_back(m)]: the constructor [RootMove(Move)] *)
  RootMove_of : Z → RootMove;
  (** [_tb->rank_root_moves(pos, rootMoves)], updating the vector in place *)
  rank_root_moves : Position → list RootMove → list RootMove;
  (** [rootPos.set(pos.fen(), pos.is_chess960(), ...)] *)
  Position_set : Position → Position
}.

(** ** Results of blocking and partial operations *)

Inductive outcome (A : Type) : Type :=
  | Done (a : A)      (* the call returns *)
  | Blocks            (* the caller is parked on a condition variable *)
  | Aborts            (* an [assert] fails *)
  | Undefined.        (* undefined behaviour *)
Arguments Done {A} a.
Arguments Blocks {A}.
Arguments Aborts {A}.
Arguments Undefined {A}.

Definition obind {A B} (x : outcome A) (k : A → outcome B) : outcome B :=
  match x with
  | Done a => k a
  | Blocks => Blocks
  | Aborts => Aborts
  | Undefined => Undefined
  end.

Notation "x ⇐ e ; k" := (obind e (λ x, k))
  (at level 20, e at level 100, k at level 200, only parsing).
Notation "' x ⇐ e ; k" := (obind e (λ x, k))
  (at level 20, x pattern, e at level 100, k at level 200, only parsing).

Definition of_option {A} (x : option A) : outcome A :=
  match x with Some a => Done a | None => Undefined end.

(** ** Threads *)

(** The two flags guarded by the thread's mutex; both are set before
    the [std::thread] member is started ([exit = false, searching = true]). *)
Record Sync := { exit : bool; searching : bool }.

(** ** The park/wake protocol of one thread

    One pool thread (the worker, running [Thread::idle_loop]) and the
    thread that owns it (the client, running the constructor, the
    destructor, [start_searching] or [wait_for_search_finished]).  Every
    step is one critical section of the thread's mutex, or one access
    made outside it. *)
Module Park.

(** Where the worker is inside [idle_loop]. *)
Inductive WorkerPc :=
  | AtLoopHead   (* about to take the lock at the top of [while (true)] *)
  | Parked       (* inside [cv.wait(lk, [&]{ return searching; })] *)
  | InSearch     (* inside [search()] *)
  | Returned.    (* [idle_loop] has returned: the thread can be joined *)

(** What the client still has to execute. *)
Inductive ClientOp :=
  | CWait        (* [wait_for_search_finished()] *)
  | CStart       (* [start_searching()] *)
  | CAssertIdle  (* [assert(!searching)] *)
  | CSetExit     (* [exit = true] *)
  | CJoin.       (* [stdThread.join()] *)

Inductive Agent := Worker | Client.

Record State := {
  flags : Sync;
  worker : WorkerPc;
  client : list ClientOp;
  aborted : bool
}.

(** [Thread::start_searching]: [searching = true] under the lock. *)
Definition start_searching (s : Sync) : Sync :=
  {| exit := exit s; searching := true |}.

(** The predicate of the wait in [idle_loop]. *)
Definition wake_predicate (s : Sync) : bool := searching s.

(** The predicate of the wait in [wait_for_search_finished]. *)
Definition finished_predicate (s : Sync) : bool := negb (searching s).

(** What [~Thread] does to the flags before joining:
    [exit = true; start_searching();]. *)
Definition request_exit (s : Sync) : Sync :=
  start_searching {| exit := true; searching := searching s |}.

(** One step of [Thread::idle_loop].  The processor-group binding at the
    head of the function touches none of these fields and is left out. *)
Definition idle_loop_step (p : State) : option State :=
  match worker p with
  | AtLoopHead =>
      (* lock; searching = false; notify_one; enter the wait *)
      Some {| flags := {| exit := exit (flags p); searching := false |};
              worker := Parked; client := client p; aborted := aborted p |}
  | Parked =>
      if wake_predicate (flags p) then
        Some {| flags := flags p;
                worker := if exit (flags p) then Returned else InSearch;
                client := client p; aborted := aborted p |}
      else None
  | InSearch =>
      (* [search()] returns *)
      Some {| flags := flags p; worker := AtLoopHead;
              client := client p; aborted := aborted p |}
  | Returned => None
  end.

Definition client_step (p : State) : option State :=
  match client p with
  | [] => None
  | CWait :: k =>
      if finished_predicate (flags p) then
        Some {| flags := flags p; worker := worker p; client := k;
                aborted := aborted p |}
      else None
  | CStart :: k =>
      Some {| flags := start_searching (flags p); worker := worker p;
              client := k; aborted := aborted p |}
  | CAssertIdle :: k =>
      if searching (flags p) then
        Some {| flags := flags p; worker := worker p; client := [];
                aborted := true |}
      else
        Some {| flags := flags p; worker := worker p; client := k;
                aborted := aborted p |}
  | CSetExit :: k =>
      Some {| flags := {| exit := true; searching := searching (flags p) |};
              worker := worker p; client := k; aborted := aborted p |}
  | CJoin :: k =>
      match worker p with
      | Returned =>
          Some {| flags := flags p; worker := worker p; client := k;
                  aborted := aborted p |}
      | _ => None
      end
  end.

(** One step of the chosen agent; [None] when it cannot move (blocked,
    finished, or the process has aborted). *)
Definition step (a : Agent) (p : State) : option State :=
  if aborted p then None
  else match a with
       | Worker => idle_loop_step p
       | Client => client_step p
       end.

(** An interleaving: the scheduler names an agent at each tick; an
    agent that cannot move leaves the state as it is. *)
Fixpoint run (sched : list Agent) (p : State) : State :=
  match sched with
  | [] => p
  | a :: rest => run rest (default p (step a p))
  end.


(** [Thread::~Thread] *)
Definition Thread_dtor_body : list ClientOp :=
  [CAssertIdle; CSetExit; CStart; CJoin].

(** A thread parked in [idle_loop] with no search requested, whose
    owner is about to run [body]. *)
Definition parked_idle (body : list ClientOp) : State :=
  {| flags := {| exit := false; searching := false |};
     worker := Parked; client := body; aborted := false |}.



(** The states a destructor run passes through, from a parked thread. *)
Definition dtor_states : list State :=
  [ parked_idle Thread_dtor_body;
    {| flags := {| exit := false; searching := false |};
       worker := Parked; client := [CSetExit; CStart; CJoin];
       aborted := false |};
    {| flags := {| exit := true; searching := false |};
       worker := Parked; client := [CStart; CJoin]; aborted := false |};
    {| flags := {| exit := true; searching := true |};
       worker := Parked; client := [CJoin]; aborted := false |};
    {| flags := {| exit := true; searching := true |};
       worker := Returned; client := [CJoin]; aborted := false |};
    {| flags := {| exit := true; searching := true |};
       worker := Returned; client := []; aborted := false |} ].

(** What the specification asks of the exit signal: a termination
    request never raises the predicate that means "start a search". *)
Definition spec_exit_not_a_search_signal : Prop :=
  ∀ s : Sync, wake_predicate (request_exit s) = false.

End Park.

(** ** Process-wide one-time initialisation

    The block of [stockfish_thread_wrapper] between taking and releasing
    the function-static mutex, run by any number of sessions. *)
Module OnceInit.

Inductive SessionPc :=
  | BeforeLock   (* about to construct the [unique_lock] *)
  | Locked       (* holds [mtx], about to test [bitboards_initialized] *)
  | Checked      (* past the [if], about to store the flag *)
  | FlagSet      (* has stored [true], about to leave the block *)
  | Released.    (* has unlocked; running the rest of the session *)

Record State := {
  mtx : option nat;                (* the session holding the mutex *)
  bitboards_initialized : bool;
  init_calls : nat;                (* calls of [Bitboards::init] so far *)
  sessions : list SessionPc
}.

Definition start (n : nat) : State :=
  {| mtx := None; bitboards_initialized := false; init_calls := 0;
     sessions := replicate n BeforeLock |}.

Definition step (i : nat) (s : State) : option State :=
  match sessions s !! i with
  | None => None
  | Some BeforeLock =>
      match mtx s with
      | Some _ => None
      | None =>
          Some {| mtx := Some i;
                  bitboards_initialized := bitboards_initialized s;
                  init_calls := init_calls s;
                  sessions := <[i := Locked]> (sessions s) |}
      end
  | Some Locked =>
      Some {| mtx := mtx s;
              bitboards_initialized := bitboards_initialized s;
              init_calls := if bitboards_initialized s then init_calls s
                            else S (init_calls s);
              sessions := <[i := Checked]> (sessions s) |}
  | Some Checked =>
      Some {| mtx := mtx s; bitboards_initialized := true;
              init_calls := init_calls s;
              sessions := <[i := FlagSet]> (sessions s) |}
  | Some FlagSet =>
      Some {| mtx := None;
              bitboards_initialized := bitboards_initialized s;
              init_calls := init_calls s;
              sessions := <[i := Released]> (sessions s) |}
  | Some Released => None
  end.

Fixpoint run (sched : list nat) (s : State) : State :=
  match sched with
  | [] => s
  | i :: rest => run rest (default s (step i s))
  end.

Definition is_released (pc : SessionPc) : bool :=
  match pc with Released => true | _ => false end.

Definition all_released (s : State) : bool := forallb is_released (sessions s).

(** Each session in turn runs its whole block. *)
Definition one_after_another (n : nat) : list nat :=
  flat_map (λ i, [i; i; i; i]) (seq 0 n).

(** Inside the block guarded by [mtx]. *)
Definition in_block (pc : SessionPc) : bool :=
  match pc with Locked | Checked | FlagSet => true | _ => false end.

(** Past the store [bitboards_initialized = true]. *)
Definition after_store (pc : SessionPc) : bool :=
  match pc with FlagSet | Released => true | _ => false end.

(** Past the test of the flag, hence past any call of
    [Bitboards::init] the session makes. *)
Definition past_check (pc : SessionPc) : bool :=
  match pc with Checked | FlagSet | Released => true | _ => false end.

(** The invariant of the protocol. *)
Record Inv (s : State) : Prop := {
  inv_holder : ∀ j pc, sessions s !! j = Some pc → in_block pc = true →
                       mtx s = Some j;
  inv_held : ∀ j, mtx s = Some j →
                  ∃ pc, sessions s !! j = Some pc ∧ in_block pc = true;
  inv_flag : bitboards_initialized s = true → init_calls s = 1%nat;
  inv_store : ∀ j pc, sessions s !! j = Some pc → after_store pc = true →
                      bitboards_initialized s = true;
  inv_checked : ∀ j, sessions s !! j = Some Checked → init_calls s = 1%nat;
  inv_unset : bitboards_initialized s = false →
              init_calls s = 0%nat ∨ ∃ j, sessions s !! j = Some Checked
}.

End OnceInit.

(** ** Session set-up: basic_filebuf2 and pipe_wrapper *)
Module Session.

(** A [basic_filebuf2] is its member [__fd_]; 0 means "not open". *)
Definition filebuf2_new : Z := 0.

Definition filebuf2_is_open (fd_ : Z) : bool := negb (fd_ =? 0).

(** [open(fd)]: an already held descriptor is closed first. *)
Definition filebuf2_open (fd : Z) (fd_ : Z) (fds : gset Z) : Z * gset Z :=
  (fd, if fd_ =? 0 then fds else fds ∖ {[fd_]}).

(** [close()], also run by the destructor. *)
Definition filebuf2_close (fd_ : Z) (fds : gset Z) : Z * gset Z :=
  if fd_ =? 0 then (fd_, fds) else (0, fds ∖ {[fd_]}).

(** What the operating system answers to the calls of one
    [pipe_wrapper] run. *)
Record Env := {
  pipe_fd_in : option (Z * Z);    (* [pipe(fd_in)]: [None] is failure *)
  pipe_fd_out : option (Z * Z);   (* [pipe(fd_out)] *)
  pthread_create_ok : bool;
  pthread_join_ok : bool          (* a failure is only printed *)
}.

(** The session thread: [stockfish_thread_wrapper] opens [fin] and
    [fout] on its two descriptors, and their destructors run when it
    returns ([fout] first). *)
Definition session_thread (pipe_in pipe_out : Z) (fds : gset Z) : gset Z :=
  let '(fin, fds) := filebuf2_open pipe_in filebuf2_new fds in
  let '(fout, fds) := filebuf2_open pipe_out filebuf2_new fds in
  let '(_, fds) := filebuf2_close fout fds in
  let '(_, fds) := filebuf2_close fin fds in
  fds.

(** [pipe_wrapper]: the returned status and the descriptors open when
    it returns, from the descriptors open when it is called.  The
    destructors of [file_out] and [file_in] run at every [return]
    placed after their declaration. *)
Definition pipe_wrapper (env : Env) (fds : gset Z) : Z * gset Z :=
  match pipe_fd_in env with
  | None => (1, fds)
  | Some (in0, in1) =>
    let fds := {[in0; in1]} ∪ fds in
    match pipe_fd_out env with
    | None => (1, fds)
    | Some (out0, out1) =>
      let fds := {[out0; out1]} ∪ fds in
      let '(file_in, fds) := filebuf2_open in1 filebuf2_new fds in
      let '(file_out, fds) := filebuf2_open out0 filebuf2_new fds in
      let leave (status : Z) (file_in file_out : Z) (fds : gset Z) :=
        let '(_, fds) := filebuf2_close file_out fds in
        let '(_, fds) := filebuf2_close file_in fds in
        (status, fds) in
      if negb (filebuf2_is_open file_in) then leave 1 file_in file_out fds
      else if negb (filebuf2_is_open file_out) then leave 1 file_in file_out fds
      else if negb (pthread_create_ok env) then leave 1 file_in file_out fds
      else
        let fds := session_thread in0 out1 fds in
        let '(file_out, fds) := filebuf2_close file_out fds in
        let '(file_in, fds) := filebuf2_close file_in fds in
        leave 0 file_in file_out fds
    end
  end.

(** The descriptors a run of [pipe_wrapper] obtained from the system. *)
Definition opened (env : Env) : gset Z :=
  match pipe_fd_in env with
  | None => ∅
  | Some (in0, in1) =>
    match pipe_fd_out env with
    | None => {[in0; in1]}
    | Some (out0, out1) => {[in0; in1; out0; out1]}
    end
  end.

(** Whether a pipe or the session thread could not be created. *)
Definition creation_fails (env : Env) : bool :=
  match pipe_fd_in env, pipe_fd_out env with
  | Some _, Some _ => negb (pthread_create_ok env)
  | _, _ => true
  end.

End Session.

(** The learning tables reset by [Thread::clear].  Every table is the
    sequence of its cells; [continuationHistory[inCheck][c]] is a pair of
    pairs of tables, each keeping its nesting [to][h][cell]. *)
Record Tables := {
  counterMoves : list Z;
  mainHistory : list Z;
  captureHistory : list Z;
  continuationHistory :
    (list (list (list Z)) * list (list (list Z)))
    * (list (list (list Z)) * list (list (list Z)))
}.

(** The members [MainThread] adds to [Thread]. *)
Record MainFields := {
  previousTimeReduction : Q;
  bestPreviousScore : Z;
  bestPreviousAverageScore : Z;
  callsCnt : Z;
  stopOnPonderhit : bool;
  ponder : bool
}.

Section WithCollaborators.
Context `{Types_h} `{Collaborators}.

(** [mainPart] is [Some] exactly when the dynamic type is [MainThread]. *)
Record Thread := {
  idx : nat;
  sync : Sync;
  nodes : Z;
  tbHits : Z;
  bestMoveChanges : Z;
  nmpMinPly : Z;
  rootPos : Position;
  rootState : StateInfo;
  rootMoves : list RootMove;
  rootDepth : Z;
  completedDepth : Z;
  tables : Tables;
  mainPart : option MainFields
}.

Definition is_main (th : Thread) : bool :=
  match mainPart th with Some _ => true | None => false end.

(** ** ThreadPool::get_best_thread *)

(** The lambda [thread_value], with [minScore] captured by value. *)
Definition thread_value (minScore : Z) (th : Thread) : option Z :=
  rm ← rootMoves th !! 0%nat;
  Some (int32 (int32 (int32 (score rm - minScore) + 14) * completedDepth th)).

(** First loop: [minScore = std::min(minScore, th->rootMoves[0].score)]. *)
Fixpoint min_score_loop (ths : list Thread) (minScore : Z) : option Z :=
  match ths with
  | [] => Some minScore
  | th :: rest =>
      rm ← rootMoves th !! 0%nat;
      min_score_loop rest (Z.min minScore (score rm))
  end.

(** [votes[m]] read as an rvalue: a missing key reads as 0. *)
Definition votes_at (votes : gmap Z Z) (m : Z) : Z := default 0 (votes !! m).

(** Second loop: [votes[th->rootMoves[0].pv[0]] += thread_value(th)]. *)
Fixpoint vote_loop (minScore : Z) (ths : list Thread) (votes : gmap Z Z)
  : option (gmap Z Z) :=
  match ths with
  | [] => Some votes
  | th :: rest =>
      rm ← rootMoves th !! 0%nat;
      m ← pv rm !! 0%nat;
      v ← thread_value minScore th;
      vote_loop minScore rest (<[m := int64 (votes_at votes m + v)]> votes)
  end.

(** [int(th->rootMoves[0].pv.size() > 2)] *)
Definition pv_longer_than_two (rm : RootMove) : Z :=
  bool_to_int (2 <? length (pv rm))%nat.

(** Body of the third loop for the thread [th] in slot [i]; the operands
    of [||] and [&&] are evaluated left to right and only when needed. *)
Definition select_step (threads : list Thread) (votes : gmap Z Z)
    (minScore : Z) (bestThread i : nat) (th : Thread) : option nat :=
  best ← threads !! bestThread;
  brm ← rootMoves best !! 0%nat;
  if decide (VALUE_TB_WIN_IN_MAX_PLY ≤ int32 (Z.abs (score brm))) then
    rm ← rootMoves th !! 0%nat;
    Some (if decide (score brm < score rm) then i else bestThread)
  else
    rm ← rootMoves th !! 0%nat;
    if decide (VALUE_TB_WIN_IN_MAX_PLY ≤ score rm) then Some i
    else if decide (VALUE_TB_LOSS_IN_MAX_PLY < score rm) then
      m ← pv rm !! 0%nat;
      bm ← pv brm !! 0%nat;
      if decide (votes_at votes bm < votes_at votes m) then Some i
      else if decide (votes_at votes m = votes_at votes bm) then
        v ← thread_value minScore th;
        bv ← thread_value minScore best;
        Some (if decide (int32 (bv * pv_longer_than_two brm)
                         < int32 (v * pv_longer_than_two rm))
              then i else bestThread)
      else Some bestThread
    else Some bestThread.

Fixpoint select_loop (threads : list Thread) (votes : gmap Z Z)
    (minScore : Z) (ths : list Thread) (i bestThread : nat) : option nat :=
  match ths with
  | [] => Some bestThread
  | th :: rest =>
      b ← select_step threads votes minScore bestThread i th;
      select_loop threads votes minScore rest (S i) b
  end.

(** The slot of the selected thread; [None] is undefined behaviour. *)
Definition get_best_thread (threads : list Thread) : option nat :=
  _ ← threads !! 0%nat;
  minScore ← min_score_loop threads VALUE_NONE;
  votes ← vote_loop minScore threads ∅;
  select_loop threads votes minScore threads 0%nat 0%nat.

(** ** Thread: construction, destruction, clear *)



Definition Thread_with_sync (s : Sync) (th : Thread) : Thread :=
  {| idx := idx th; sync := s;
     nodes := nodes th; tbHits := tbHits th;
     bestMoveChanges := bestMoveChanges th; nmpMinPly := nmpMinPly th;
     rootPos := rootPos th; rootState := rootState th;
     rootMoves := rootMoves th;
     rootDepth := rootDepth th; completedDepth := completedDepth th;
     tables := tables th; mainPart := mainPart th |}.

Definition Thread_with_mainPart (mf : MainFields) (th : Thread) : Thread :=
  {| idx := idx th; sync := sync th;
     nodes := nodes th; tbHits := tbHits th;
     bestMoveChanges := bestMoveChanges th; nmpMinPly := nmpMinPly th;
     rootPos := rootPos th; rootState := rootState th;
     rootMoves := rootMoves th;
     rootDepth := rootDepth th; completedDepth := completedDepth th;
     tables := tables th; mainPart := Some mf |}.

(** [Thread::start_searching] *)
Definition Thread_start_searching (th : Thread) : Thread :=
  Thread_with_sync (Park.start_searching (sync th)) th.

(** [Thread::wait_for_search_finished]: returns once the predicate
    [!searching] holds. *)
Definition Thread_wait_for_search_finished (th : Thread) : outcome unit :=
  if Park.finished_predicate (sync th) then Done () else Blocks.


(** [fill(v)] of a [std::array]-backed table. *)
Definition fill {A} (v : A) (t : list A) : list A := map (λ _, v) t.

(** [Thread::clear] *)
Definition Thread_clear (th : Thread) : Thread :=
  let t := tables th in
  {| idx := idx th; sync := sync th;
     nodes := nodes th; tbHits := tbHits th;
     bestMoveChanges := bestMoveChanges th; nmpMinPly := nmpMinPly th;
     rootPos := rootPos th; rootState := rootState th;
     rootMoves := rootMoves th;
     rootDepth := rootDepth th; completedDepth := completedDepth th;
     tables :=
       {| counterMoves := fill MOVE_NONE (counterMoves t);
          mainHistory := fill 0 (mainHistory t);
          captureHistory := fill 0 (captureHistory t);
          continuationHistory :=
            let clear_one := map (map (fill (-71))) in
            let '((h00, h01), (h10, h11)) := continuationHistory t in
            ((clear_one h00, clear_one h01), (clear_one h10, clear_one h11)) |};
     mainPart := mainPart th |}.

(** ** ThreadPool *)

(** Calls made to the collaborators, with the arguments passed. *)
Inductive Call :=
  | CallRankRootMoves (pos : Position) (rootMoves : list RootMove)
  | CallTTResize (mbSize : Z) (threads : list Thread)  (* [_tt->resize(.., this)] *)
  | CallSearchInit (threads : list Thread).            (* [_search->init(this)] *)

Record ThreadPool := {
  threads : list Thread;
  stop : bool;
  increaseDepth : bool;
  setupStates : option (list StateInfo);
  limits : LimitsType;       (* the object behind [_limits] *)
  optionHash : Z;            (* the option named Hash *)
  calls : list Call          (* oldest first *)
}.

Definition ThreadPool_with_threads (ths : list Thread) (tp : ThreadPool)
  : ThreadPool :=
  {| threads := ths; stop := stop tp; increaseDepth := increaseDepth tp;
     setupStates := setupStates tp; limits := limits tp;
     optionHash := optionHash tp; calls := calls tp |}.


(** [main()]: [static_cast<MainThread*>(threads.front())]. *)
Definition ThreadPool_main (ths : list Thread) : outcome (Thread * MainFields) :=
  match ths with
  | [] => Undefined
  | th :: _ =>
      match mainPart th with
      | Some mf => Done (th, mf)
      | None => Undefined
      end
  end.

(** An assignment through [main()->]. *)
Definition main_update (f : MainFields → MainFields) (ths : list Thread)
  : outcome (list Thread) :=
  '(th, mf) ⇐ ThreadPool_main ths;
  Done (Thread_with_mainPart (f mf) th :: tail ths).

(** [ThreadPool::clear] *)
Definition ThreadPool_clear (tp : ThreadPool) : outcome ThreadPool :=
  let ths := map Thread_clear (threads tp) in
  ths ⇐ main_update (λ mf,
           {| previousTimeReduction := 1;
              bestPreviousScore := VALUE_INFINITE;
              bestPreviousAverageScore := VALUE_INFINITE;
              callsCnt := 0;
              stopOnPonderhit := stopOnPonderhit mf;
              ponder := ponder mf |}) ths;
  Done (ThreadPool_with_threads ths tp).




(** The filter of the root-move loop of [start_thinking]. *)
Definition searchmoves_allow (lim : LimitsType) (m : Z) : bool :=
  match searchmoves lim with
  | [] => true
  | _ :: _ => negb (count_occ Z.eq_dec (searchmoves lim) m =? 0)%nat
  end.

(** The body of the per-thread loop of [start_thinking]. *)
Definition Thread_setup_search (pos : Position) (rms : list RootMove)
    (back : StateInfo) (th : Thread) : Thread :=
  {| idx := idx th; sync := sync th;
     nodes := 0; tbHits := 0; bestMoveChanges := 0; nmpMinPly := 0;
     rootPos := Position_set pos; rootState := back;
     rootMoves := rms;
     rootDepth := 0; completedDepth := 0;
     tables := tables th; mainPart := mainPart th |}.

Fixpoint setup_loop (pos : Position) (rms : list RootMove)
    (setup : list StateInfo) (ths : list Thread) : outcome (list Thread) :=
  match ths with
  | [] => Done []
  | th :: rest =>
      back ⇐ of_option (last setup);
      rest' ⇐ setup_loop pos rms setup rest;
      Done (Thread_setup_search pos rms back th :: rest')
  end.

(** [ThreadPool::start_thinking(pos, states, limits, ponderMode)]:
    the pool and the caller's [states] handle after the call. *)
Definition ThreadPool_start_thinking (pos : Position)
    (states : option (list StateInfo)) (lim : LimitsType) (ponderMode : bool)
    (tp : ThreadPool) : outcome (ThreadPool * option (list StateInfo)) :=
  '(m, _) ⇐ ThreadPool_main (threads tp);
  _ ⇐ Thread_wait_for_search_finished m;
  ths ⇐ main_update (λ mf,
           {| previousTimeReduction := previousTimeReduction mf;
              bestPreviousScore := bestPreviousScore mf;
              bestPreviousAverageScore := bestPreviousAverageScore mf;
              callsCnt := callsCnt mf;
              stopOnPonderhit := false;
              ponder := ponderMode |}) (threads tp);
  let rootMoves0 :=
    map RootMove_of (filter (λ m, searchmoves_allow lim m = true)
                            (MoveList_LEGAL pos)) in
  let '(rootMoves1, calls1) :=
    match rootMoves0 with
    | [] => (rootMoves0, calls tp)
    | _ :: _ => (rank_root_moves pos rootMoves0,
                 calls tp ++ [CallRankRootMoves pos rootMoves0])
    end in
  match states, setupStates tp with
  | None, None => Aborts
  | _, _ =>
      let setup := match states with Some s => Some s | None => setupStates tp end in
      sl ⇐ of_option setup;
      ths ⇐ setup_loop pos rootMoves1 sl ths;
      '(m, _) ⇐ ThreadPool_main ths;
      Done ({| threads := Thread_start_searching m :: tail ths;
               stop := false; increaseDepth := true;
               setupStates := setup; limits := lim;
               optionHash := optionHash tp; calls := calls1 |},
            None)
  end.

(** [ThreadPool::start_searching]: every thread but [threads.front()]. *)
Definition ThreadPool_start_searching (tp : ThreadPool) : ThreadPool :=
  ThreadPool_with_threads
    (imap (λ i th, if decide (i = 0%nat) then th
                   else Thread_start_searching th) (threads tp)) tp.

Fixpoint wait_loop (i : nat) (ths : list Thread) : outcome unit :=
  match ths with
  | [] => Done ()
  | th :: rest =>
      _ ⇐ (if decide (i = 0%nat) then Done ()
           else Thread_wait_for_search_finished th);
      wait_loop (S i) rest
  end.

(** [ThreadPool::wait_for_search_finished] *)
Definition ThreadPool_wait_for_search_finished (tp : ThreadPool)
  : outcome ThreadPool :=
  _ ⇐ wait_loop 0 (threads tp); Done tp.



(** ** The selection of get_best_thread as the specification words it

    These definitions follow the five steps of the written algorithm,
    over unbounded integers; they are compared with [get_best_thread]
    below. *)

Definition first_score (th : Thread) : Z :=
  default 0 (score <$> rootMoves th !! 0%nat).

Definition first_move (th : Thread) : Z :=
  default 0 (rm ← rootMoves th !! 0%nat; pv rm !! 0%nat).

Definition first_pv_length (th : Thread) : nat :=
  default 0%nat ((λ rm, length (pv rm)) <$> rootMoves th !! 0%nat).

(** Step 1: the minimum first-root-move score over all workers. *)
Definition spec_min_score (ths : list Thread) : Z :=
  match ths with
  | [] => 0
  | th :: rest => foldr (λ th' acc, Z.min (first_score th') acc) (first_score th) rest
  end.

(** Step 2: value(th) = (th.score - minScore + 14) * th.completedDepth. *)
Definition spec_value (minScore : Z) (th : Thread) : Z :=
  (first_score th - minScore + 14) * completedDepth th.

(** Step 3: the vote total of a move is the sum of the values of the
    workers whose first PV move it is. *)
Definition spec_votes (minScore : Z) (ths : list Thread) (m : Z) : Z :=
  foldr (λ th acc, (if decide (first_move th = m)
                    then spec_value minScore th else 0) + acc) 0 ths.

(** value(th) multiplied by the indicator "PV longer than two moves". *)
Definition spec_scaled_value (minScore : Z) (th : Thread) : Z :=
  spec_value minScore th * (if (2 <? first_pv_length th)%nat then 1 else 0).

(** Step 5, the test: when does worker [th] replace the current [best]. *)
Definition spec_replaces (minScore : Z) (ths : list Thread)
    (best th : Thread) : Prop :=
  if decide (VALUE_TB_WIN_IN_MAX_PLY ≤ Z.abs (first_score best)) then
    first_score best < first_score th
  else
    VALUE_TB_WIN_IN_MAX_PLY ≤ first_score th
    ∨ (VALUE_TB_LOSS_IN_MAX_PLY < first_score th
       ∧ (spec_votes minScore ths (first_move best)
            < spec_votes minScore ths (first_move th)
          ∨ (spec_votes minScore ths (first_move th)
               = spec_votes minScore ths (first_move best)
             ∧ spec_scaled_value minScore best
                 < spec_scaled_value minScore th))).

#[global] Instance spec_replaces_dec minScore ths best th :
  Decision (spec_replaces minScore ths best th).
Proof. unfold spec_replaces. case_decide; apply _. Defined.

(** Steps 4 and 5: scan the workers in pool order from slot [i] on,
    carrying the current best and its slot. *)
Fixpoint spec_scan (minScore : Z) (all ths : list Thread) (i : nat)
    (best : nat * Thread) : nat * Thread :=
  match ths with
  | [] => best
  | th :: rest =>
      spec_scan minScore all rest (S i)
        (if bool_decide (spec_replaces minScore all best.2 th)
         then (i, th) else best)
  end.

(** Step 6: the slot of the selected worker, starting from slot 0. *)
Definition spec_best_thread (ths : list Thread) : option nat :=
  match ths with
  | [] => None
  | main :: _ =>
      Some (spec_scan (spec_min_score ths) ths ths 0 (0%nat, main)).1
  end.

(** ** Well-formed snapshots and pools *)

(** A worker with at least one root move whose PV is not empty. *)
Definition has_first_pv_move (th : Thread) : Prop :=
  ∃ rm m, rootMoves th !! 0%nat = Some rm ∧ pv rm !! 0%nat = Some m.

(** Scores and depths inside the range of their types. *)
Definition in_value_range (th : Thread) : Prop :=
  (- VALUE_NONE ≤ first_score th ≤ VALUE_NONE)
  ∧ 0 ≤ completedDepth th ≤ MAX_PLY.

(** The constants leave [thread_value] inside [int]. *)
Definition types_h_sane : Prop :=
  0 < MAX_PLY ∧ (2 * VALUE_NONE + 14) * MAX_PLY < 2 ^ 31.





(** The counters [start_thinking] resets. *)
Definition counters_zero (th : Thread) : Prop :=
  nodes th = 0 ∧ tbHits th = 0 ∧ bestMoveChanges th = 0
  ∧ nmpMinPly th = 0 ∧ rootDepth th = 0 ∧ completedDepth th = 0.

(** The root-move list [start_thinking] builds before it consults the
    endgame tables. *)
Definition built_root_moves (pos : Position) (lim : LimitsType)
  : list RootMove :=
  map RootMove_of (filter (λ m, searchmoves_allow lim m = true)
                          (MoveList_LEGAL pos)).

(** The list handed to the workers, and the call made to obtain it. *)
Definition ranked_root_moves (pos : Position) (lim : LimitsType)
  : list RootMove :=
  match built_root_moves pos lim with
  | [] => []
  | _ :: _ => rank_root_moves pos (built_root_moves pos lim)
  end.

Definition rank_call (pos : Position) (lim : LimitsType) : list Call :=
  match built_root_moves pos lim with
  | [] => []
  | _ :: _ => [CallRankRootMoves pos (built_root_moves pos lim)]
  end.

(** The main-thread members as [start_thinking] leaves them. *)
Definition main_started (ponderMode : bool) (mf : MainFields) : MainFields :=
  {| previousTimeReduction := previousTimeReduction mf;
     bestPreviousScore := bestPreviousScore mf;
     bestPreviousAverageScore := bestPreviousAverageScore mf;
     callsCnt := callsCnt mf;
     stopOnPonderhit := false;
     ponder := ponderMode |}.

Definition is_rank_call (c : Call) : bool :=
  match c with CallRankRootMoves _ _ => true | _ => false end.

(** How often [rank_root_moves] was called. *)
Definition rank_calls (cs : list Call) : nat :=
  length (filter (λ c, is_rank_call c = true) cs).



(** What the specification writes about the endgame-table call: one
    call of [rank_root_moves] in every call of [start_thinking]. *)
Definition spec_rank_once (pos : Position) (states : option (list StateInfo))
    (lim : LimitsType) (ponderMode : bool) (tp : ThreadPool) : Prop :=
  ∀ r, ThreadPool_start_thinking pos states lim ponderMode tp = Done r →
       rank_calls (calls r.1) = S (rank_calls (calls tp)).

(** ** The three-worker scenario *)

(** A worker whose snapshot is (score, depth, PV); its other members
    are those of [raw]. *)
Definition snapshot (raw : Thread) (s d : Z) (line : list Z) : Thread :=
  {| idx := idx raw; sync := sync raw;
     nodes := nodes raw; tbHits := tbHits raw;
     bestMoveChanges := bestMoveChanges raw; nmpMinPly := nmpMinPly raw;
     rootPos := rootPos raw; rootState := rootState raw;
     rootMoves := [{| score := s; pv := line |}];
     rootDepth := rootDepth raw; completedDepth := d;
     tables := tables raw; mainPart := mainPart raw |}.

(** (100,10,e4), (90,12,e4), (50,8,d4), with arbitrary continuations. *)
Definition three_workers (raw : Thread) (e4 d4 : Z) (k0 k1 k2 : list Z)
  : list Thread :=
  [snapshot raw 100 10 (e4 :: k0);
   snapshot raw 90 12 (e4 :: k1);
   snapshot raw 50 8 (d4 :: k2)].

(** The outcome the specification writes down for this scenario. *)
Definition spec_scenario_outcome (pool : list Thread) (e4 d4 : Z) : Prop :=
  min_score_loop pool VALUE_NONE = Some 50
  ∧ map (thread_value 50) pool = [Some 640; Some 616; Some 120]
  ∧ (∃ votes, vote_loop 50 pool ∅ = Some votes
              ∧ votes_at votes e4 = 1256 ∧ votes_at votes d4 = 120)
  ∧ get_best_thread pool = Some 0%nat.

End WithCollaborators.

(** ** Concrete collaborators

    A position type with one position, whose legal moves are given. *)
Definition fixed_collaborators (legal : list Z) : Collaborators :=
  {| Position := unit; StateInfo := unit; LimitsType := list Z;
     searchmoves := λ l, l;
     MoveList_LEGAL := λ _, legal;
     RootMove_of := λ m, {| score := -32001; pv := [m] |};
     rank_root_moves := λ _ rms, rms;
     Position_set := λ p, p |}.

(** A thread of that world with nothing in it. *)
Definition blank_thread (legal : list Z) : @Thread (fixed_collaborators legal) :=
  {| idx := 0%nat; sync := {| exit := false; searching := false |};
     nodes := 0; tbHits := 0; bestMoveChanges := 0; nmpMinPly := 0;
     rootPos := (() : @Position (fixed_collaborators legal));
     rootState := (() : @StateInfo (fixed_collaborators legal));
     rootMoves := [];
     rootDepth := 0; completedDepth := 0;
     tables := {| counterMoves := [7]; mainHistory := [8];
                  captureHistory := [9];
                  continuationHistory :=
                    (([[[1]]], [[[2]]]), ([[[3]]], [[[4]]])) |};
     mainPart := None |}.

Definition blank_main : MainFields :=
  {| previousTimeReduction := 0; bestPreviousScore := 0;
     bestPreviousAverageScore := 0; callsCnt := 5;
     stopOnPonderhit := true; ponder := false |}.

(** An idle main thread and a pool of two idle threads. *)
Definition blank_main_thread (legal : list Z)
  : @Thread (fixed_collaborators legal) :=
  Thread_with_mainPart blank_main (blank_thread legal).

Definition small_pool (legal : list Z)
  : @ThreadPool (fixed_collaborators legal) :=
  {| threads := [blank_main_thread legal; blank_thread legal];
     stop := false; increaseDepth := false;
     setupStates := None;
     limits := ([] : @LimitsType (fixed_collaborators legal));
     optionHash := 16; calls := [] |}.

(** e2e4 and d2d4 in the engine's move encoding (from-square times 64
    plus to-square), and the replies e7e5, g1f3. *)
Definition e2e4 : Z := 796.
Definition d2d4 : Z := 731.
Definition e7e5 : Z := 3364.
Definition g1f3 : Z := 405.

(** A position in which e2e4 and d2d4 are the legal moves, and one in
    which the side to move has no legal move. *)
Definition two_move_world : Collaborators := fixed_collaborators [e2e4; d2d4].
Definition no_move_world : Collaborators := fixed_collaborators [].

(** * More of the pool, the protocol and the session wrapper *)

(** ** Pool totals and outcomes *)

Definition uint64 (z : Z) : Z := z `mod` 2 ^ 64.

Inductive outcome_kind := KDone | KBlocks | KAborts | KUndefined.

Definition kind_of {A} (x : outcome A) : outcome_kind :=
  match x with
  | Done _ => KDone
  | Blocks => KBlocks
  | Aborts => KAborts
  | Undefined => KUndefined
  end.

Section PoolObservers.
Context `{Types_h} `{Collaborators}.

(** [ThreadPool::accumulate]: the relaxed loads summed in [uint64_t]. *)
Definition accumulate (member : Thread → Z) (ths : list Thread) : Z :=
  foldl (λ sum th, uint64 (sum + member th)) 0 ths.

(** [ThreadPool::nodes_searched] and [ThreadPool::tb_hits] *)
Definition nodes_searched (tp : ThreadPool) : Z := accumulate nodes (threads tp).

(** The worker side of a finished search: back at the head of
    [idle_loop] the thread stores [searching = false]. *)
Definition Thread_search_finished (th : Thread) : Thread :=
  Thread_with_sync {| exit := exit (sync th); searching := false |} th.

Definition idle (th : Thread) : bool := negb (searching (sync th)).

End PoolObservers.

(** A thread of the one-position world that has counted [n] nodes and
    [hits] table hits. *)
Definition counting_thread (legal : list Z) (n hits : Z)
    (th : @Thread (fixed_collaborators legal))
  : @Thread (fixed_collaborators legal) :=
  {| idx := idx th; sync := sync th;
     nodes := n; tbHits := hits;
     bestMoveChanges := bestMoveChanges th; nmpMinPly := nmpMinPly th;
     rootPos := rootPos th; rootState := rootState th;
     rootMoves := rootMoves th;
     rootDepth := rootDepth th; completedDepth := completedDepth th;
     tables := tables th; mainPart := mainPart th |}.

(** The pool of two idle threads after a search of 1500 nodes. *)
Definition counted_pool : @ThreadPool two_move_world :=
  ThreadPool_with_threads (H0 := two_move_world)
    [counting_thread [e2e4; d2d4] 1000 2 (blank_main_thread [e2e4; d2d4]);
     counting_thread [e2e4; d2d4] 500 1 (blank_thread [e2e4; d2d4])]
    (small_pool [e2e4; d2d4]).

(** ** Histories of the park/wake protocol *)
Module ParkHistory.
Import Park.

(** The constructor followed by whatever its owner does next. *)
Definition spawned (prog : list ClientOp) : State :=
  {| flags := {| exit := false; searching := true |};
     worker := AtLoopHead; client := CWait :: prog; aborted := false |}.

(** [k] times [start_searching(); wait_for_search_finished();]. *)
Fixpoint rounds (k : nat) : list ClientOp :=
  match k with
  | O => []
  | S k' => CStart :: CWait :: rounds k'
  end.

(** Whether this step is the worker leaving its wait to call [search()]. *)
Definition enters_search (a : Agent) (p : State) : bool :=
  match a, step a p with
  | Worker, Some p' =>
      match worker p, worker p' with
      | Parked, InSearch => true
      | _, _ => false
      end
  | _, _ => false
  end.

(** The number of calls of [search()] made along an interleaving. *)
Fixpoint searches (sched : list Agent) (p : State) : nat :=
  match sched with
  | [] => 0
  | a :: rest =>
      ((if enters_search a p then 1 else 0)
       + searches rest (default p (step a p)))%nat
  end.

(** The invariant of [k] start/wait rounds: where the two threads can
    be when [n] searches have been started. *)
Inductive RoundInv (k : nat) : State → nat → Prop :=
  | AtRest r n :
      (n + r = k)%nat →
      RoundInv k {| flags := {| exit := false; searching := false |};
                    worker := Parked; client := rounds r;
                    aborted := false |} n
  | Signalled r n :
      (n + r + 1 = k)%nat →
      RoundInv k {| flags := {| exit := false; searching := true |};
                    worker := Parked; client := CWait :: rounds r;
                    aborted := false |} n
  | Searching r n :
      (n + r = k)%nat → (0 < n)%nat →
      RoundInv k {| flags := {| exit := false; searching := true |};
                    worker := InSearch; client := CWait :: rounds r;
                    aborted := false |} n
  | Finishing r n :
      (n + r = k)%nat → (0 < n)%nat →
      RoundInv k {| flags := {| exit := false; searching := true |};
                    worker := AtLoopHead; client := CWait :: rounds r;
                    aborted := false |} n
  | Reported r n :
      (n + r = k)%nat → (0 < n)%nat →
      RoundInv k {| flags := {| exit := false; searching := false |};
                    worker := Parked; client := CWait :: rounds r;
                    aborted := false |} n.

(** [Thread::~Thread] in a build with [NDEBUG], where [assert] expands
    to nothing. *)
Definition Thread_dtor_body_ndebug : list ClientOp := [CSetExit; CStart; CJoin].

End ParkHistory.

(** ** Sessions started at any time

    [main] starts ten sessions at once and one more after they have
    ended; here a session may enter [stockfish_thread_wrapper] at any
    moment. *)
Module OnceInitLater.
Import OnceInit.

Inductive Event :=
  | Start              (* a new session enters [stockfish_thread_wrapper] *)
  | Turn (i : nat).    (* session [i] makes its next step *)

Definition add_session (s : State) : State :=
  {| mtx := mtx s; bitboards_initialized := bitboards_initialized s;
     init_calls := init_calls s;
     sessions := sessions s ++ [BeforeLock] |}.

Fixpoint play (evs : list Event) (s : State) : State :=
  match evs with
  | [] => s
  | Start :: rest => play rest (add_session s)
  | Turn i :: rest => play rest (default s (step i s))
  end.

End OnceInitLater.

(** ** What pipe_wrapper leaves behind *)

(** The descriptors a run of [pipe_wrapper] obtained and did not give
    back. *)
Definition left_open (env : Session.Env) : gset Z :=
  match Session.pipe_fd_in env, Session.pipe_fd_out env with
  | None, _ => ∅
  | Some (in0, in1), None => {[in0; in1]}
  | Some (in0, in1), Some (out0, out1) =>
      if Session.pthread_create_ok env then ∅ else {[in0; out1]}
  end.

(** What the system guarantees about the descriptors it hands out:
    they are not 0, were not open before, and differ from each other. *)
Definition fresh_answers (env : Session.Env) (fds : gset Z) : Prop :=
  0 ∉ Session.opened env
  ∧ Session.opened env ## fds
  ∧ match Session.pipe_fd_in env, Session.pipe_fd_out env with
    | Some (in0, in1), Some (out0, out1) => NoDup [in0; in1; out0; out1]
    | Some (in0, in1), None => in0 ≠ in1
    | None, _ => True
    end.

(** ** UCI options (ucioption.cpp, uci.h)

    An [OptionsMap] is a [std::map] from names to options ordered by
    [CaseInsensitiveLess]; it is carried as the list of its entries in
    key order.  Its member [insert_order] is never read or written by
    ucioption.cpp and is left out; the counter the code does use is the
    function-local [static size_t insert_order] of [Option::operator<<],
    one for the whole process, which is threaded through explicitly.
    The back pointers [_threads] and [_tune] of an option are left out. *)

(** What the platform and the C and C++ libraries contribute. *)
Class Platform := {
  (** whether plain [char] is a signed type *)
  char_is_signed : bool;
  (** the width of [size_t] in bits *)
  size_t_width : positive;
  (** the values of type [float] *)
  float : Type;
  (** [std::stof], [None] when it throws *)
  stof : string → option float;
  (** [x < y] on [float] *)
  float_lt : float → float → bool;
  (** the conversion of an [int] to [float] *)
  float_of_int : Z → float;
  (** [std::to_string(double)] *)
  to_string : Q → string;
  (** [EvalFileDefaultName] of evaluate.h and [Is64Bit] of types.h *)
  EvalFileDefaultName : string;
  Is64Bit : bool
}.

Module UCI.
Section WithPlatform.
Context `{Platform}.

Definition size_t (z : Z) : Z := z `mod` 2 ^ Z.pos size_t_width.

(** The conversion of a [char] to [int]. *)
Definition char_to_int (c : ascii) : Z :=
  let n := Z.of_N (N_of_ascii c) in
  if char_is_signed && (128 <=? n) then n - 256 else n.

(** [tolower] in the "C" locale, the locale a program starts in.  For
    a negative argument (a [char] above 127 where [char] is signed) the
    C standard leaves the call undefined; the argument is returned, as
    the C libraries in use do. *)
Definition tolower (c : Z) : Z :=
  if (65 <=? c) && (c <=? 90) then c + 32 else c.

(** [std::lexicographical_compare] with a comparison [comp]. *)
Fixpoint lexicographical_compare {A} (comp : A → A → bool)
    (l1 l2 : list A) : bool :=
  match l1, l2 with
  | x :: r1, y :: r2 =>
      if comp x y then true
      else if comp y x then false
      else lexicographical_compare comp r1 r2
  | [], _ :: _ => true
  | _, [] => false
  end.

Definition CaseInsensitiveLess (s1 s2 : string) : bool :=
  lexicographical_compare
    (λ c1 c2, tolower (char_to_int c1) <? tolower (char_to_int c2))
    (list_ascii_of_string s1) (list_ascii_of_string s2).

(** The 'on change' actions of ucioption.cpp; each one calls into
    another part of the engine. *)
Inductive OnChange :=
  | on_clear_hash | on_hash_size | on_logger | on_threads | on_tb_path
  | on_eval_file.

(** [idx] is not set by the constructors: [None] is an indeterminate
    value. *)
Record Option := {
  defaultValue : string;
  currentValue : string;
  type : string;
  min : Z;
  max : Z;
  idx : option Z;
  on_change : option OnChange
}.

(** The constructors, in the order of ucioption.cpp. *)
Definition Option_string (v : string) (f : option OnChange) : Option :=
  {| type := "string"; min := 0; max := 0; on_change := f;
     defaultValue := v; currentValue := v; idx := None |}.

Definition Option_check (v : bool) (f : option OnChange) : Option :=
  {| type := "check"; min := 0; max := 0; on_change := f;
     defaultValue := if v then "true" else "false";
     currentValue := if v then "true" else "false"; idx := None |}.

Definition Option_default : Option :=
  {| type := "button"; min := 0; max := 0; on_change := None;
     defaultValue := ""; currentValue := ""; idx := None |}.

Definition Option_button (f : option OnChange) : Option :=
  {| type := "button"; min := 0; max := 0; on_change := f;
     defaultValue := ""; currentValue := ""; idx := None |}.

Definition Option_spin (v : Q) (minv maxv : Z) (f : option OnChange)
    : Option :=
  {| type := "spin"; min := minv; max := maxv; on_change := f;
     defaultValue := to_string v; currentValue := to_string v;
     idx := None |}.

Definition Option_combo (v cur : string) (f : option OnChange) : Option :=
  {| type := "combo"; min := 0; max := 0; on_change := f;
     defaultValue := v; currentValue := cur; idx := None |}.

(** [Option::operator==]. *)
Definition Option_eq (this : Option) (s : string) : outcome bool :=
  if negb (String.eqb (type this) "combo") then Aborts
  else Done (negb (CaseInsensitiveLess (currentValue this) s)
             && negb (CaseInsensitiveLess s (currentValue this))).

Definition OptionsMap := list (string * Option).

(** [om[k]] followed by a change [f] of the option referred to: the
    entry with a key equivalent to [k] if there is one, otherwise a
    new entry holding [Option()] placed in key order. *)
Fixpoint subscript (k : string) (f : Option → Option) (om : OptionsMap)
    : OptionsMap :=
  match om with
  | [] => [(k, f Option_default)]
  | (k', o') :: rest =>
      if CaseInsensitiveLess k k' then (k, f Option_default) :: om
      else if CaseInsensitiveLess k' k then (k', o') :: subscript k f rest
      else (k', f o') :: rest
  end.

(** Two keys are equivalent for the map when neither is less than the
    other. *)
Definition equivalent (s1 s2 : string) : bool :=
  negb (CaseInsensitiveLess s1 s2) && negb (CaseInsensitiveLess s2 s1).

(** [std::map::find] and [std::map::count]: the entry whose key is
    equivalent to [k]. *)
Definition OptionsMap_find (k : string) (om : OptionsMap)
    : option (string * Option) :=
  List.find (λ e, equivalent k e.1) om.

Definition OptionsMap_count (k : string) (om : OptionsMap) : Z :=
  if OptionsMap_find k om then 1 else 0.

(** [Option::operator<<]: [*this = o; idx = insert_order++]. *)
Definition Option_shl (o : Option) (insert_order : Z) (this : Option)
    : Option :=
  {| defaultValue := defaultValue o; currentValue := currentValue o;
     type := type o; min := min o; max := max o;
     idx := Some insert_order; on_change := on_change o |}.

(** [om[k] << o], on the map and the process-wide counter. *)
Definition shl (k : string) (o : Option) (st : OptionsMap * Z)
    : OptionsMap * Z :=
  (subscript k (Option_shl o st.2) st.1, size_t (st.2 + 1)).

(** [UCI::init]. *)
Definition MaxHashMB : Z := if Is64Bit then 33554432 else 2048.

Definition init_items : list (string * Option) :=
  [ ("Debug Log File", Option_string "" (Some on_logger));
    ("Threads", Option_spin 1 1 1024 (Some on_threads));
    ("Hash", Option_spin 16 1 MaxHashMB (Some on_hash_size));
    ("Clear Hash", Option_button (Some on_clear_hash));
    ("Ponder", Option_check false None);
    ("MultiPV", Option_spin 1 1 500 None);
    ("Skill Level", Option_spin 20 0 20 None);
    ("Move Overhead", Option_spin 10 0 5000 None);
    ("Slow Mover", Option_spin 100 10 1000 None);
    ("nodestime", Option_spin 0 0 10000 None);
    ("UCI_Chess960", Option_check false None);
    ("UCI_AnalyseMode", Option_check false None);
    ("UCI_LimitStrength", Option_check false None);
    ("UCI_Elo", Option_spin 1320 1320 3190 None);
    ("UCI_ShowWDL", Option_check false None);
    ("SyzygyPath", Option_string "<empty>" (Some on_tb_path));
    ("SyzygyProbeDepth", Option_spin 1 1 100 None);
    ("Syzygy50MoveRule", Option_check true None);
    ("SyzygyProbeLimit", Option_spin 7 0 7 None);
    ("EvalFile", Option_string EvalFileDefaultName (Some on_eval_file)) ].

(** A run of [o[name] << option] statements. *)
Definition shl_all (items : list (string * Option))
    (st : OptionsMap * Z) : OptionsMap * Z :=
  foldl (λ st e, shl e.1 e.2 st) st items.

Definition init (st : OptionsMap * Z) : OptionsMap * Z :=
  shl_all init_items st.

(** [operator<<(std::ostream&, const OptionsMap&)]: the entries that
    are written, in the order they are written; every entry is written
    as one "option name ..." line fixed by its key and its option.  The
    inner loop reads [idx] of the entries it passes. *)
Fixpoint find_idx (i : Z) (om : OptionsMap)
    : outcome (option (string * Option)) :=
  match om with
  | [] => Done None
  | (k, o) :: rest =>
      match idx o with
      | None => Undefined
      | Some j => if j =? i then Done (Some (k, o)) else find_idx i rest
      end
  end.

Fixpoint print_loop (n : nat) (i : Z) (om : OptionsMap)
    : outcome (list (string * Option)) :=
  match n with
  | O => Done []
  | S n =>
      e ⇐ find_idx i om;
      rest ⇐ print_loop n (i + 1) om;
      Done (match e with Some x => x :: rest | None => rest end)
  end.

Definition print (om : OptionsMap) : outcome (list (string * Option)) :=
  print_loop (length om) 0 om.

(** [ss >> token] until it fails: the maximal runs of characters that
    are not white space ([isspace] in the "C" locale). *)
Definition isspace (c : ascii) : bool :=
  let n := Z.of_N (N_of_ascii c) in
  (n =? 32) || ((9 <=? n) && (n <=? 13)).

Fixpoint tokens_from (cur : option string) (s : string) : list string :=
  match s with
  | EmptyString => match cur with Some t => [t] | None => [] end
  | String c r =>
      if isspace c then
        match cur with
        | Some t => t :: tokens_from None r
        | None => tokens_from None r
        end
      else
        tokens_from
          (Some (match cur with
                 | Some t => t +:+ String c EmptyString
                 | None => String c EmptyString
                 end)) r
  end.

Definition tokens (s : string) : list string := tokens_from None s.

(** [currentValue = v]. *)
Definition with_currentValue (v : string) (this : Option) : Option :=
  {| defaultValue := defaultValue this; currentValue := v;
     type := type this; min := min this; max := max this;
     idx := idx this; on_change := on_change this |}.

(** The ways [Option::operator=] ends. *)
Inductive assigned :=
  | Returned (this : Option) (insert_order : Z) (ran : option OnChange)
      (* [ran]: the action called with the updated option *)
  | Thrown                    (* [std::stof] throws *)
  | AssertFails.

(** [Option::operator=(const string& v)]. *)
Definition Option_assign (v : string) (this : Option) (insert_order : Z)
    : assigned :=
  if String.eqb (type this) "" then AssertFails
  else if negb (String.eqb (type this) "button")
          && negb (String.eqb (type this) "string")
          && String.eqb v ""
  then Returned this insert_order None
  else if String.eqb (type this) "check"
          && negb (String.eqb v "true") && negb (String.eqb v "false")
  then Returned this insert_order None
  else
    match (if String.eqb (type this) "spin" then
             match stof v with
             | None => None
             | Some x =>
                 Some (float_lt x (float_of_int (min this))
                       || float_lt (float_of_int (max this)) x)
             end
           else Some false) with
    | None => Thrown
    | Some true => Returned this insert_order None
    | Some false =>
        let '(refused, insert_order) :=
          if String.eqb (type this) "combo" then
            let '(comboMap, insert_order) :=
              shl_all ((λ token, (token, Option_default))
                         <$> tokens (defaultValue this))
                      ([], insert_order) in
            (negb (0 <? OptionsMap_count v comboMap) || String.eqb v "var",
             insert_order)
          else (false, insert_order) in
        if refused then Returned this insert_order None
        else
          let this :=
            if negb (String.eqb (type this) "button")
            then with_currentValue v this else this in
          Returned this insert_order (on_change this)
    end.

(** *** Notions used to state the properties *)

(** A name with its letters lowered, as [CaseInsensitiveLess] sees
    it. *)
Definition lowered (s : string) : list Z :=
  map (λ c, tolower (char_to_int c)) (list_ascii_of_string s).

(** The keys of a map are in strictly increasing order. *)
Definition ordered (om : OptionsMap) : Prop :=
  StronglySorted (λ e1 e2, CaseInsensitiveLess e1.1 e2.1 = true) om.

(** The entries a run of [o[name] << option] statements stores when
    the counter starts at [c] and does not wrap. *)
Fixpoint stamped (c : Z) (items : list (string * Option))
    : list (string * Option) :=
  match items with
  | [] => []
  | e :: rest => (e.1, Option_shl e.2 c Option_default) :: stamped (c + 1) rest
  end.

(** The value of an option fits its type. *)
Definition fits (o : Option) : Prop :=
  if String.eqb (type o) "check" then
    currentValue o = "true" ∨ currentValue o = "false"
  else if String.eqb (type o) "spin" then
    ∃ x, stof (currentValue o) = Some x
         ∧ float_lt x (float_of_int (min o)) = false
         ∧ float_lt (float_of_int (max o)) x = false
  else if String.eqb (type o) "combo" then
    currentValue o ≠ "var"
    ∧ ∃ t, t ∈ tokens (defaultValue o) ∧ lowered t = lowered (currentValue o)
  else True.

End WithPlatform.
End UCI.

(** A platform for the instances: unsigned [char], 64-bit [size_t],
    rational numbers for [float], a [stof] that reads an unsigned
    decimal numeral and refuses every other text, and a [to_string]
    that writes six decimals. *)
Fixpoint read_numeral (seen : bool) (num den : Z) (frac : bool) (s : string)
    : option Q :=
  match s with
  | EmptyString => if seen then Some (num # Z.to_pos den) else None
  | String c r =>
      let n := Z.of_N (N_of_ascii c) in
      if (48 <=? n) && (n <=? 57)
      then read_numeral true (10 * num + (n - 48))
             (if frac then 10 * den else den) frac r
      else if (n =? 46) && negb frac then read_numeral seen num den true r
      else None
  end.

Definition decimal (n : Z) : string :=
  NilZero.string_of_uint (N.to_uint (Z.to_N n)).

Definition six_decimals (q : Q) : string :=
  let n := (2 * Qnum q * 10 ^ 6 + Z.pos (Qden q)) `div` (2 * Z.pos (Qden q)) in
  let a := Z.abs n in
  (if n <? 0 then "-"%string else ""%string)
  +:+ decimal (a `div` 10 ^ 6) +:+ "."
  +:+ match decimal (10 ^ 6 + a `mod` 10 ^ 6) with
      | String _ r => r
      | EmptyString => EmptyString
      end.

Definition decimal_platform : Platform := {|
  char_is_signed := false;
  size_t_width := 64;
  float := Q;
  stof := read_numeral false 0 1 false;
  float_lt := λ x y, negb (Qle_bool y x);
  float_of_int := inject_Z;
  to_string := six_decimals;
  EvalFileDefaultName := "nn-default.nnue";
  Is64Bit := true
|}.

(** The "Threads" option as [UCI::init] makes it, and a combo option as
    the engine has had them. *)
Definition threads_option : UCI.Option :=
  UCI.Option_spin (H := decimal_platform) 1 1 1024 (Some UCI.on_threads).

Definition contempt_option : UCI.Option :=
  UCI.Option_combo
    "Both var Off var White var Black var Both" "Both" None.

(** The case analysis on the type of an option. *)
Ltac type_cases o :=
  destruct (String.eqb_spec (UCI.type o) "") as [?|?];
  destruct (String.eqb_spec (UCI.type o) "button") as [?|?];
  destruct (String.eqb_spec (UCI.type o) "string") as [?|?];
  destruct (String.eqb_spec (UCI.type o) "check") as [?|?];
  destruct (String.eqb_spec (UCI.type o) "spin") as [?|?];
  destruct (String.eqb_spec (UCI.type o) "combo") as [?|?];
  try congruence.

(** ** Tune::next (tune.cpp)

    [next(names, pop)] returns the next name of a comma-separated list
    and, with [pop], removes it from the list; the list is passed by
    reference, so the embedding returns it with the name.  The loop of
    [next] need not end: the embedding counts iterations, and [None]
    means that the loop is still running after [fuel] of them. *)
Module Tune.

(** [names.substr(0, names.find(','))]: the characters before the
    first comma, all of them when there is none. *)
Fixpoint substr_to_comma (names : string) : string :=
  match names with
  | EmptyString => EmptyString
  | String c r =>
      if Ascii.eqb c "," then EmptyString else String c (substr_to_comma r)
  end.

(** [names.erase(0, n)]. *)
Fixpoint erase_front (n : nat) (s : string) : string :=
  match n, s with
  | O, _ => s
  | S n, String _ r => erase_front n r
  | S _, EmptyString => EmptyString
  end.

(** [std::stringstream ws(token); ws >> token]: white space is
    skipped and the characters up to the next white space are read;
    when there is none to read the extraction fails and leaves [token]
    as it was. *)
Fixpoint skip_ws (s : string) : string :=
  match s with
  | EmptyString => EmptyString
  | String c r => if UCI.isspace c then skip_ws r else s
  end.

Fixpoint word (s : string) : string :=
  match s with
  | EmptyString => EmptyString
  | String c r => if UCI.isspace c then EmptyString else String c (word r)
  end.

Definition extract (token : string) : string :=
  match word (skip_ws token) with
  | EmptyString => token
  | w => w
  end.

(** [std::count(name.begin(), name.end(), c)]. *)
Fixpoint count (c : ascii) (s : string) : Z :=
  match s with
  | EmptyString => 0
  | String c' r => (if Ascii.eqb c' c then 1 else 0) + count c r
  end.

(** The do-while loop of [next]. *)
Fixpoint next_loop (fuel : nat) (names name : string) (pop : bool)
    : option (string * string) :=
  match fuel with
  | O => None
  | S fuel =>
      let token := substr_to_comma names in
      let names :=
        if pop then erase_front (String.length token + 1) names else names in
      let name := name +:+ extract token in
      if count "(" name - count ")" name =? 0 then Some (name, names)
      else next_loop fuel names name pop
  end.

Definition next (fuel : nat) (names : string) (pop : bool)
    : option (string * string) :=
  next_loop fuel names EmptyString pop.

End Tune.

(** * Properties *)

(** ** Machine integers *)

Lemma int32_id (z : Z) : in_int32 z → int32 z = z.
Proof.
  unfold in_int32, int32. intros Hz.
  rewrite Z.mod_small; lia.
Qed.

Lemma int64_id (z : Z) : in_int64 z → int64 z = z.
Proof.
  unfold in_int64, int64. intros Hz.
  rewrite Z.mod_small; lia.
Qed.

Example int32_wraps : int32 (2 ^ 31) = - 2 ^ 31 ∧ int32 (- 2 ^ 31 - 1) = 2 ^ 31 - 1.
Proof. split; reflexivity. Qed.

Example int64_wraps : int64 (2 ^ 63) = - 2 ^ 63.
Proof. reflexivity. Qed.

Section PoolProperties.
Context `{Types_h} `{Collaborators}.

(** ** get_best_thread *)

Lemma first_score_lookup (th : Thread) (rm : RootMove) :
  rootMoves th !! 0%nat = Some rm → first_score th = score rm.
Proof. unfold first_score. by intros ->. Qed.

Lemma has_first_pv_move_inv (th : Thread) :
  has_first_pv_move th →
  ∃ rm, rootMoves th !! 0%nat = Some rm
        ∧ pv rm !! 0%nat = Some (first_move th)
        ∧ first_score th = score rm
        ∧ first_pv_length th = length (pv rm).
Proof.
  intros (rm & m & Hrm & Hm). exists rm.
  unfold first_move, first_score, first_pv_length. rewrite Hrm. simpl.
  rewrite Hm. done.
Qed.

Lemma foldr_min_push (ths : list Thread) (acc s : Z) :
  foldr (λ th' a, Z.min (first_score th') a) (Z.min acc s) ths
  = Z.min s (foldr (λ th' a, Z.min (first_score th') a) acc ths).
Proof. induction ths as [|th ths IH]; simpl; [lia | rewrite IH; lia]. Qed.

Lemma min_score_loop_foldr (ths : list Thread) (acc : Z) :
  Forall has_first_pv_move ths →
  min_score_loop ths acc
  = Some (foldr (λ th' a, Z.min (first_score th') a) acc ths).
Proof.
  intros Hall. revert acc.
  induction Hall as [|th ths Hth _ IH]; intros acc; simpl; [done|].
  destruct (has_first_pv_move_inv th Hth) as (rm & Hrm & _ & Hs & _).
  rewrite Hrm. simpl. rewrite IH, foldr_min_push, Hs. f_equal; lia.
Qed.

Lemma foldr_min_le_init (ths : list Thread) (acc : Z) :
  foldr (λ th' a, Z.min (first_score th') a) acc ths ≤ acc.
Proof. induction ths; simpl; lia. Qed.

Lemma foldr_min_le_elem (ths : list Thread) (acc : Z) (th : Thread) :
  th ∈ ths → foldr (λ th' a, Z.min (first_score th') a) acc ths ≤ first_score th.
Proof.
  induction 1 as [th ths|th th' ths _ IH]; simpl; lia.
Qed.

Lemma foldr_min_attained (ths : list Thread) (acc : Z) :
  foldr (λ th' a, Z.min (first_score th') a) acc ths = acc
  ∨ ∃ th, th ∈ ths
          ∧ foldr (λ th' a, Z.min (first_score th') a) acc ths = first_score th.
Proof.
  induction ths as [|th ths IH]; simpl; [by left|].
  destruct (Z.min_spec (first_score th)
              (foldr (λ th' a, Z.min (first_score th') a) acc ths))
    as [[_ ->]|[_ ->]].
  - right. exists th. split; [left | done].
  - destruct IH as [IH|(th' & Hin & IH)]; [by left|].
    right. exists th'. split; [by right | done].
Qed.

(** The specification's minimum is a minimum. *)
Lemma spec_min_score_le (ths : list Thread) (th : Thread) :
  th ∈ ths → spec_min_score ths ≤ first_score th.
Proof.
  destruct ths as [|th0 rest]; [by intros ?%elem_of_nil|].
  intros [->|Hin]%elem_of_cons; simpl.
  - apply foldr_min_le_init.
  - by apply foldr_min_le_elem.
Qed.

Lemma spec_min_score_attained (ths : list Thread) :
  ths ≠ [] → ∃ th, th ∈ ths ∧ spec_min_score ths = first_score th.
Proof.
  destruct ths as [|th0 rest]; [done|]. intros _. simpl.
  destruct (foldr_min_attained rest (first_score th0)) as [->|(th & Hin & ->)].
  - exists th0. split; [left | done].
  - exists th. split; [by right | done].
Qed.

Lemma min_score_loop_spec (ths : list Thread) :
  ths ≠ [] →
  Forall has_first_pv_move ths →
  Forall in_value_range ths →
  min_score_loop ths VALUE_NONE = Some (spec_min_score ths).
Proof.
  intros Hne Hpv Hrange. rewrite min_score_loop_foldr by done.
  destruct ths as [|th rest]; [done|]. simpl.
  apply Forall_cons in Hrange as [[Hs _] _].
  rewrite <- foldr_min_push.
  by replace (Z.min VALUE_NONE (first_score th)) with (first_score th) by lia.
Qed.

Lemma spec_min_score_range (ths : list Thread) :
  ths ≠ [] → Forall in_value_range ths →
  - VALUE_NONE ≤ spec_min_score ths ≤ VALUE_NONE.
Proof.
  intros Hne Hrange.
  destruct (spec_min_score_attained ths Hne) as (th & Hin & ->).
  rewrite Forall_forall in Hrange. by destruct (Hrange th Hin).
Qed.

(** Under [types_h_sane] nothing wraps in [thread_value]. *)
Lemma value_bound (s m d : Z) :
  types_h_sane →
  - VALUE_NONE ≤ s ≤ VALUE_NONE → - VALUE_NONE ≤ m ≤ VALUE_NONE →
  0 ≤ d ≤ MAX_PLY →
  in_int32 (s - m) ∧ in_int32 (s - m + 14)
  ∧ Z.abs ((s - m + 14) * d) ≤ (2 * VALUE_NONE + 14) * MAX_PLY.
Proof.
  unfold types_h_sane, in_int32. intros [Hply Hsane] Hs Hm Hd.
  assert (2 * VALUE_NONE + 14 < 2 ^ 31) by nia.
  repeat split; try lia.
  assert (Z.abs (s - m + 14) ≤ 2 * VALUE_NONE + 14) by lia.
  rewrite Z.abs_mul, (Z.abs_eq d) by lia.
  apply Z.mul_le_mono_nonneg; lia.
Qed.

Lemma thread_value_spec (minScore : Z) (th : Thread) :
  types_h_sane → has_first_pv_move th → in_value_range th →
  - VALUE_NONE ≤ minScore ≤ VALUE_NONE →
  thread_value minScore th = Some (spec_value minScore th)
  ∧ Z.abs (spec_value minScore th) ≤ (2 * VALUE_NONE + 14) * MAX_PLY.
Proof.
  intros Hsane Hpv [Hs Hd] Hm.
  destruct (has_first_pv_move_inv th Hpv) as (rm & Hrm & _ & Hsc & _).
  destruct (value_bound (first_score th) minScore (completedDepth th))
    as (H1 & H2 & H3); [done..|].
  split; [|done].
  unfold thread_value, spec_value. rewrite Hrm. simpl. rewrite <- Hsc.
  rewrite (int32_id _ H1), (int32_id _ H2). f_equal. apply int32_id.
  destruct Hsane as [_ Hsane]. unfold in_int32. lia.
Qed.

Lemma votes_at_insert (votes : gmap Z Z) (m0 m x : Z) :
  votes_at (<[m0 := x]> votes) m
  = if decide (m0 = m) then x else votes_at votes m.
Proof.
  unfold votes_at. rewrite lookup_insert. by case_decide.
Qed.

Lemma votes_at_empty (m : Z) : votes_at ∅ m = 0.
Proof. unfold votes_at. by rewrite lookup_empty. Qed.

(** The second loop adds, for every move, the values of its voters;
    the running totals stay inside [int64_t]. *)
Lemma vote_loop_spec (minScore : Z) (ths : list Thread) :
  types_h_sane →
  - VALUE_NONE ≤ minScore ≤ VALUE_NONE →
  Forall has_first_pv_move ths → Forall in_value_range ths →
  ∀ (votes : gmap Z Z) (k : nat),
    (∀ m, Z.abs (votes_at votes m)
          ≤ Z.of_nat k * ((2 * VALUE_NONE + 14) * MAX_PLY)) →
    Z.of_nat (k + length ths) < 2 ^ 32 →
    ∃ votes', vote_loop minScore ths votes = Some votes'
      ∧ ∀ m, votes_at votes' m = votes_at votes m + spec_votes minScore ths m.
Proof.
  intros Hsane Hmin Hpv. induction Hpv as [|th ths Hth _ IH];
    intros Hrange votes k Hbound Hlen; simpl.
  - exists votes. split; [done|]. intros m. lia.
  - apply Forall_cons in Hrange as [Hr Hrange].
    destruct (has_first_pv_move_inv th Hth) as (rm & Hrm & Hm0 & _).
    destruct (thread_value_spec minScore th) as [Hv Hvb]; [done..|].
    rewrite Hrm. simpl. rewrite Hm0. simpl. rewrite Hv. simpl.
    set (B := (2 * VALUE_NONE + 14) * MAX_PLY) in *.
    assert (0 ≤ B) by lia.
    assert (B < 2 ^ 31) by (by destruct Hsane).
    pose proof (Hbound (first_move th)) as Hb0.
    assert (Z.abs (votes_at votes (first_move th) + spec_value minScore th)
            ≤ Z.of_nat (S k) * B) as Hsum by lia.
    rewrite int64_id; last first.
    { unfold in_int64. simpl length in Hlen.
      assert (Z.of_nat (S k) * B < 2 ^ 32 * 2 ^ 31) by nia. lia. }
    destruct (IH Hrange
                (<[first_move th := votes_at votes (first_move th)
                                    + spec_value minScore th]> votes) (S k))
      as (votes' & Hloop & Htot).
    + intros m. rewrite votes_at_insert. case_decide; [done|].
      specialize (Hbound m). lia.
    + simpl length in Hlen. lia.
    + exists votes'. split; [done|]. intros m.
      rewrite Htot, votes_at_insert.
      repeat case_decide; subst; try done; lia.
Qed.

Lemma scaled_value_spec (minScore : Z) (th : Thread) (rm : RootMove) :
  types_h_sane →
  rootMoves th !! 0%nat = Some rm →
  Z.abs (spec_value minScore th) ≤ (2 * VALUE_NONE + 14) * MAX_PLY →
  int32 (spec_value minScore th * pv_longer_than_two rm)
  = spec_scaled_value minScore th.
Proof.
  intros [_ Hsane] Hrm Hb.
  unfold spec_scaled_value, pv_longer_than_two, first_pv_length, bool_to_int.
  rewrite Hrm. simpl.
  apply int32_id. unfold in_int32.
  destruct (2 <? length (pv rm))%nat; lia.
Qed.

(** One iteration of the third loop is the specification's test. *)
Lemma select_step_spec (threads : list Thread) (votes : gmap Z Z)
    (minScore : Z) (b i : nat) (bt th : Thread) :
  types_h_sane →
  - VALUE_NONE ≤ minScore ≤ VALUE_NONE →
  threads !! b = Some bt →
  has_first_pv_move bt → in_value_range bt →
  has_first_pv_move th → in_value_range th →
  (∀ m, votes_at votes m = spec_votes minScore threads m) →
  select_step threads votes minScore b i th
  = Some (if bool_decide (spec_replaces minScore threads bt th) then i else b).
Proof.
  intros Hsane Hmin Hb Hbpv Hbr Hpv Hr Hvotes.
  destruct (has_first_pv_move_inv bt Hbpv) as (brm & Hbrm & Hbm & Hbs & _).
  destruct (has_first_pv_move_inv th Hpv) as (rm & Hrm & Hm & Hs & _).
  destruct (thread_value_spec minScore bt) as [Hbv Hbvb]; [done..|].
  destruct (thread_value_spec minScore th) as [Hv Hvb]; [done..|].
  pose proof (scaled_value_spec minScore bt brm Hsane Hbrm Hbvb) as Hbsc.
  pose proof (scaled_value_spec minScore th rm Hsane Hrm Hvb) as Hsc.
  unfold select_step.
  rewrite Hb. simpl. rewrite Hbrm. simpl. rewrite Hrm. simpl.
  rewrite Hm, Hbm. simpl. rewrite Hv, Hbv. simpl.
  rewrite Hbsc, Hsc, !Hvotes, <- Hbs, <- Hs.
  rewrite int32_id; last first.
  { destruct Hbr as [? _], Hsane as [? ?]. unfold in_int32. nia. }
  case_bool_decide as Hrep; unfold spec_replaces in Hrep;
    repeat case_decide; try done; exfalso; lia.
Qed.

(** The third loop is the specification's scan. *)
Lemma select_loop_spec (threads : list Thread) (votes : gmap Z Z)
    (minScore : Z) :
  types_h_sane →
  - VALUE_NONE ≤ minScore ≤ VALUE_NONE →
  Forall has_first_pv_move threads → Forall in_value_range threads →
  (∀ m, votes_at votes m = spec_votes minScore threads m) →
  ∀ (ths : list Thread) (i b : nat) (bt : Thread),
    (∀ j th, ths !! j = Some th → threads !! (i + j)%nat = Some th) →
    threads !! b = Some bt →
    select_loop threads votes minScore ths i b
    = Some (spec_scan minScore threads ths i (b, bt)).1.
Proof.
  intros Hsane Hmin Hpv Hrange Hvotes.
  rewrite Forall_forall in Hpv. rewrite Forall_forall in Hrange.
  induction ths as [|th rest IH]; intros i b bt Hpos Hb; simpl; [done|].
  assert (threads !! i = Some th) as Hi.
  { specialize (Hpos 0%nat th). rewrite Nat.add_0_r in Hpos. by apply Hpos. }
  assert (th ∈ threads) by (by eapply list_elem_of_lookup_2).
  assert (bt ∈ threads) by (by eapply list_elem_of_lookup_2).
  rewrite (select_step_spec threads votes minScore b i bt th) by auto.
  simpl.
  assert (∀ j th', rest !! j = Some th' → threads !! (S i + j)%nat = Some th')
    as Hpos'.
  { intros j th' Hj. specialize (Hpos (S j) th').
    replace (S i + j)%nat with (i + S j)%nat by lia. by apply Hpos. }
  case_bool_decide; by apply IH.
Qed.

(** [get_best_thread] computes the five-step selection. *)
Lemma get_best_thread_refines (threads : list Thread) :
  types_h_sane →
  threads ≠ [] →
  Z.of_nat (length threads) < 2 ^ 32 →
  Forall has_first_pv_move threads → Forall in_value_range threads →
  ∃ votes,
    min_score_loop threads VALUE_NONE = Some (spec_min_score threads)
    ∧ vote_loop (spec_min_score threads) threads ∅ = Some votes
    ∧ (∀ m, votes_at votes m = spec_votes (spec_min_score threads) threads m)
    ∧ get_best_thread threads = spec_best_thread threads.
Proof.
  intros Hsane Hne Hlen Hpv Hrange.
  pose proof (spec_min_score_range threads Hne Hrange) as Hmin.
  pose proof (min_score_loop_spec threads Hne Hpv Hrange) as Hloop1.
  destruct (vote_loop_spec (spec_min_score threads) threads Hsane Hmin Hpv
              Hrange ∅ 0%nat) as (votes & Hloop2 & Htot).
  { intros m. rewrite votes_at_empty. simpl. lia. }
  { done. }
  exists votes. split; [done|]. split; [done|].
  assert (∀ m, votes_at votes m
               = spec_votes (spec_min_score threads) threads m) as Hvotes.
  { intros m. rewrite Htot, votes_at_empty. lia. }
  split; [done|].
  unfold get_best_thread, spec_best_thread.
  destruct threads as [|main rest] eqn:Hthreads; [done|].
  rewrite <- Hthreads in *.
  replace (threads !! 0%nat) with (Some main) by (by rewrite Hthreads).
  simpl. rewrite Hloop1. simpl. rewrite Hloop2. simpl.
  apply select_loop_spec; try done.
  by rewrite Hthreads.
Qed.

(** C1. For every non-empty pool (of fewer than 2^32 workers) whose
    workers each have a first root move with a non-empty PV, with scores
    and depths in the range of their types, [get_best_thread] follows
    the five-step selection: [minScore] is the minimum first-root-move
    score; value(th) = (th.score - minScore + 14) * th.completedDepth;
    the vote total of a move is the sum of the values of its voters; the
    scan starts at slot 0 and replaces the current best exactly when the
    written test holds ([spec_replaces]); the result is the slot the
    scan ends with. *)
Theorem get_best_thread_five_step_selection (threads : list Thread) :
  types_h_sane →
  threads ≠ [] →
  Z.of_nat (length threads) < 2 ^ 32 →
  Forall has_first_pv_move threads →
  Forall in_value_range threads →
  let minScore := spec_min_score threads in
  min_score_loop threads VALUE_NONE = Some minScore
  ∧ (∃ th, th ∈ threads ∧ minScore = first_score th)
  ∧ (∀ th, th ∈ threads → minScore ≤ first_score th)
  ∧ (∀ th, th ∈ threads →
       thread_value minScore th
       = Some ((first_score th - minScore + 14) * completedDepth th))
  ∧ (∃ votes, vote_loop minScore threads ∅ = Some votes
       ∧ ∀ m, votes_at votes m = spec_votes minScore threads m)
  ∧ get_best_thread threads = spec_best_thread threads
  ∧ is_Some (get_best_thread threads).
Proof.
  intros Hsane Hne Hlen Hpv Hrange minScore.
  destruct (get_best_thread_refines threads) as (votes & H1 & H2 & H3 & H4);
    [done..|].
  split; [done|].
  split; [by apply spec_min_score_attained|].
  split; [intros th; apply spec_min_score_le|].
  split.
  { intros th Hin.
    pose proof (spec_min_score_range threads Hne Hrange) as Hmin.
    rewrite Forall_forall in Hpv. rewrite Forall_forall in Hrange.
    by destruct (thread_value_spec minScore th Hsane (Hpv th Hin)
                   (Hrange th Hin) Hmin) as [Hv _]. }
  split; [by exists votes|].
  split; [done|].
  rewrite H4. destruct threads; [done|]. by eexists.
Qed.

(** *** The three-worker scenario *)

Lemma three_workers_min raw e4 d4 k0 k1 k2 :
  50 ≤ VALUE_NONE →
  min_score_loop (three_workers raw e4 d4 k0 k1 k2) VALUE_NONE = Some 50.
Proof. intros Hnone. simpl. f_equal. lia. Qed.

Lemma three_workers_values raw e4 d4 k0 k1 k2 :
  map (thread_value 50) (three_workers raw e4 d4 k0 k1 k2)
  = [Some 640; Some 648; Some 112].
Proof. reflexivity. Qed.

Lemma three_workers_votes raw e4 d4 k0 k1 k2 :
  e4 ≠ d4 →
  ∃ votes, vote_loop 50 (three_workers raw e4 d4 k0 k1 k2) ∅ = Some votes
    ∧ votes_at votes e4 = 1288 ∧ votes_at votes d4 = 112.
Proof.
  intros Hne. eexists. split; [reflexivity|].
  rewrite !votes_at_insert, !votes_at_empty.
  repeat case_decide; done.
Qed.

(** The third loop, for a candidate and a current best that are both
    snapshots: the nest of tests of the source, on the snapshot data. *)
Lemma select_step_snapshot (threads : list Thread) (votes : gmap Z Z)
    (minScore : Z) (b i : nat) (raw raw' : Thread)
    (bs bd bm : Z) (bk : list Z) (s d m : Z) (k : list Z) :
  threads !! b = Some (snapshot raw bs bd (bm :: bk)) →
  select_step threads votes minScore b i (snapshot raw' s d (m :: k))
  = Some
      (if decide (VALUE_TB_WIN_IN_MAX_PLY ≤ int32 (Z.abs bs)) then
         if decide (bs < s) then i else b
       else if decide (VALUE_TB_WIN_IN_MAX_PLY ≤ s) then i
       else if decide (VALUE_TB_LOSS_IN_MAX_PLY < s) then
         if decide (votes_at votes bm < votes_at votes m) then i
         else if decide (votes_at votes m = votes_at votes bm) then
           if decide
                (int32 (int32 (int32 (int32 (bs - minScore) + 14) * bd)
                        * pv_longer_than_two {| score := bs; pv := bm :: bk |})
                 < int32 (int32 (int32 (int32 (s - minScore) + 14) * d)
                          * pv_longer_than_two {| score := s; pv := m :: k |}))
           then i else b
         else b
       else b).
Proof.
  intros Hb. unfold select_step, thread_value. rewrite Hb.
  cbn [mbind option_bind rootMoves completedDepth snapshot lookup
       list_lookup score pv].
  repeat case_decide; reflexivity.
Qed.

Lemma three_workers_select raw e4 d4 k0 k1 k2 votes :
  100 < VALUE_TB_WIN_IN_MAX_PLY → VALUE_TB_LOSS_IN_MAX_PLY < 90 →
  votes_at votes e4 = 1288 → votes_at votes d4 = 112 →
  select_loop (three_workers raw e4 d4 k0 k1 k2) votes 50
    (three_workers raw e4 d4 k0 k1 k2) 0 0
  = Some (if (2 <? length (e4 :: k1))%nat then 1%nat else 0%nat).
Proof.
  intros Hwin Hloss Hve Hvd.
  assert (int32 (Z.abs 100) = 100) as Habs0 by reflexivity.
  assert (int32 (Z.abs 90) = 90) as Habs1 by reflexivity.
  assert (int32 (int32 (int32 (100 - 50) + 14) * 10) = 640) as Hv0
    by reflexivity.
  assert (int32 (int32 (int32 (90 - 50) + 14) * 12) = 648) as Hv1
    by reflexivity.
  unfold three_workers at 2. unfold select_loop.
  rewrite (select_step_snapshot _ _ _ 0 0 raw raw 100 10 e4 k0) by done.
  replace (if decide (VALUE_TB_WIN_IN_MAX_PLY ≤ int32 (Z.abs 100)) then _ else _)
    with 0%nat by (repeat case_decide; reflexivity).
  simpl mbind.
  rewrite (select_step_snapshot _ _ _ 0 1 raw raw 100 10 e4 k0) by done.
  rewrite Habs0, Hv0, Hv1.
  rewrite (decide_False (P := VALUE_TB_WIN_IN_MAX_PLY ≤ 100)) by lia.
  rewrite (decide_False (P := VALUE_TB_WIN_IN_MAX_PLY ≤ 90)) by lia.
  rewrite (decide_True (P := VALUE_TB_LOSS_IN_MAX_PLY < 90)) by lia.
  rewrite (decide_False (P := votes_at votes e4 < votes_at votes e4)) by lia.
  rewrite (decide_True (P := votes_at votes e4 = votes_at votes e4)) by done.
  unfold pv_longer_than_two. cbn [pv].
  destruct (2 <? length (e4 :: k1))%nat eqn:E1; simpl bool_to_int.
  - rewrite decide_True; last first.
    { destruct (2 <? S (length k0))%nat; reflexivity. }
    simpl mbind.
    rewrite (select_step_snapshot _ _ _ 1 2 raw raw 90 12 e4 k1) by done.
    rewrite Habs1, Hve, Hvd. repeat case_decide; try done; lia.
  - rewrite decide_False; last first.
    { destruct (2 <? S (length k0))%nat; vm_compute; congruence. }
    simpl mbind.
    rewrite (select_step_snapshot _ _ _ 0 2 raw raw 100 10 e4 k0) by done.
    rewrite Habs0, Hve, Hvd. repeat case_decide; try done; lia.
Qed.

(** C2, amended.  For the snapshot (100,10,e4), (90,12,e4), (50,8,d4):
    [minScore] is 50, the values are (640, 648, 112), the vote totals are
    1288 for e4 and 112 for d4, and [get_best_thread] returns the second
    worker when its PV is longer than two moves and the first worker
    otherwise. *)
Theorem three_workers_selection (raw : Thread) (e4 d4 : Z)
    (k0 k1 k2 : list Z) :
  e4 ≠ d4 →
  100 < VALUE_TB_WIN_IN_MAX_PLY →
  VALUE_TB_LOSS_IN_MAX_PLY < 90 →
  50 ≤ VALUE_NONE →
  let pool := three_workers raw e4 d4 k0 k1 k2 in
  min_score_loop pool VALUE_NONE = Some 50
  ∧ map (thread_value 50) pool = [Some 640; Some 648; Some 112]
  ∧ (∃ votes, vote_loop 50 pool ∅ = Some votes
              ∧ votes_at votes e4 = 1288 ∧ votes_at votes d4 = 112)
  ∧ get_best_thread pool
    = Some (if (2 <? length (e4 :: k1))%nat then 1%nat else 0%nat).
Proof.
  intros Hne Hwin Hloss Hnone pool. subst pool.
  pose proof (three_workers_min raw e4 d4 k0 k1 k2 Hnone) as Hmin.
  destruct (three_workers_votes raw e4 d4 k0 k1 k2 Hne)
    as (votes & Hloop & Hve & Hvd).
  split; [done|]. split; [apply three_workers_values|].
  split; [by exists votes|].
  unfold get_best_thread.
  replace (three_workers raw e4 d4 k0 k1 k2 !! 0%nat)
    with (Some (snapshot raw 100 10 (e4 :: k0))) by reflexivity.
  cbn [mbind option_bind]. rewrite Hmin.
  cbn [mbind option_bind]. rewrite Hloop.
  cbn [mbind option_bind]. by apply three_workers_select.
Qed.

(** ** ThreadPool::set and ThreadPool::clear *)









(** ** ThreadPool::start_thinking *)

Lemma setup_loop_map (pos : Position) (rms : list RootMove)
    (sl : list StateInfo) (back : StateInfo) (ths : list Thread) :
  last sl = Some back →
  setup_loop pos rms sl ths = Done (map (Thread_setup_search pos rms back) ths).
Proof.
  intros Hback. induction ths as [|th ths IH]; simpl; [done|].
  rewrite Hback. simpl. by rewrite IH.
Qed.

Lemma setup_loop_inv (pos : Position) (rms : list RootMove)
    (sl : list StateInfo) (th : Thread) (ths result : list Thread) :
  setup_loop pos rms sl (th :: ths) = Done result →
  ∃ back, last sl = Some back.
Proof. simpl. destruct (last sl) as [back|]; [by exists back | done]. Qed.

(** What [start_thinking] returns when the pool has an idle main
    thread and a position history [sl] is available. *)
Lemma ThreadPool_start_thinking_eq (pos : Position)
    (states : option (list StateInfo)) (lim : LimitsType) (ponderMode : bool)
    (tp : ThreadPool) (m : Thread) (mf : MainFields) (rest : list Thread)
    (sl : list StateInfo) (back : StateInfo) :
  threads tp = m :: rest →
  mainPart m = Some mf →
  searching (sync m) = false →
  match states with Some s => Some s | None => setupStates tp end = Some sl →
  last sl = Some back →
  ThreadPool_start_thinking pos states lim ponderMode tp
  = Done ({| threads :=
               Thread_start_searching
                 (Thread_setup_search pos (ranked_root_moves pos lim) back
                    (Thread_with_mainPart (main_started ponderMode mf) m))
               :: map (Thread_setup_search pos (ranked_root_moves pos lim) back)
                    rest;
             stop := false; increaseDepth := true;
             setupStates := Some sl; limits := lim;
             optionHash := optionHash tp;
             calls := calls tp ++ rank_call pos lim |},
          None).
Proof.
  intros Hths Hmf Hidle Hsl Hback.
  unfold ThreadPool_start_thinking, main_update.
  rewrite Hths. simpl. rewrite Hmf. simpl.
  unfold Thread_wait_for_search_finished, Park.finished_predicate.
  rewrite Hidle. simpl.
  unfold ranked_root_moves, rank_call, built_root_moves.
  destruct (map RootMove_of _) as [|rm rms] eqn:Hbuilt.
  - destruct states as [s|], (setupStates tp) as [s'|]; simplify_eq;
      simpl; rewrite Hback; simpl; rewrite (setup_loop_map _ _ _ back) by done;
      simpl; by rewrite ?app_nil_r.
  - destruct states as [s|], (setupStates tp) as [s'|]; simplify_eq;
      simpl; rewrite Hback; simpl; rewrite (setup_loop_map _ _ _ back) by done;
      simpl; done.
Qed.

(** [start_thinking] returns only in those circumstances. *)
Lemma ThreadPool_start_thinking_inv (pos : Position)
    (states : option (list StateInfo)) (lim : LimitsType) (ponderMode : bool)
    (tp : ThreadPool) (r : ThreadPool * option (list StateInfo)) :
  ThreadPool_start_thinking pos states lim ponderMode tp = Done r →
  ∃ m mf rest sl back,
    threads tp = m :: rest
    ∧ mainPart m = Some mf
    ∧ searching (sync m) = false
    ∧ match states with Some s => Some s | None => setupStates tp end = Some sl
    ∧ last sl = Some back.
Proof.
  unfold ThreadPool_start_thinking, main_update.
  destruct (threads tp) as [|m rest] eqn:Hths; [done|]. simpl.
  destruct (mainPart m) as [mf|] eqn:Hmf; [|done]. simpl.
  unfold Thread_wait_for_search_finished, Park.finished_predicate.
  destruct (searching (sync m)) eqn:Hidle; [done|]. simpl.
  destruct (match map RootMove_of _ with [] => _ | _ :: _ => _ end)
    as [rms1 calls1].
  intros Hdone.
  assert (∃ sl, match states with Some s => Some s | None => setupStates tp end
                = Some sl) as [sl Hsl].
  { destruct states as [s|]; [by eexists|].
    destruct (setupStates tp) as [s|]; [by eexists | done]. }
  assert (∃ back, last sl = Some back) as [back Hback].
  { destruct states as [s|], (setupStates tp) as [s'|]; simplify_eq;
      simpl in Hdone;
      (destruct (last sl) as [back|]; [by eexists | done]). }
  by exists m, mf, rest, sl, back.
Qed.

(** *** The vector built by [set] *)






(** *** Every operation keeps the main thread in slot 0 *)







(** C6. A call of [start_thinking] with a non-empty history handle, on
    a pool whose main thread is idle, returns; the caller's handle is
    then empty and the pool owns the history; every worker's counters
    are zero; the main thread, and no other, has been told to search,
    and its search has not been reported finished when the call
    returns. *)
Theorem start_thinking_transfers_resets_wakes_main (pos : Position)
    (sl : list StateInfo) (lim : LimitsType) (ponderMode : bool)
    (tp : ThreadPool) (m : Thread) (mf : MainFields) (rest : list Thread)
    (back : StateInfo) :
  threads tp = m :: rest →
  mainPart m = Some mf →
  searching (sync m) = false →
  last sl = Some back →
  ∃ tp' m' rest',
    ThreadPool_start_thinking pos (Some sl) lim ponderMode tp
    = Done (tp', None)
    ∧ setupStates tp' = Some sl
    ∧ Forall counters_zero (threads tp')
    ∧ threads tp' = m' :: rest'
    ∧ searching (sync m') = true
    ∧ Thread_wait_for_search_finished m' = Blocks
    ∧ map sync rest' = map sync rest.
Proof.
  intros Hths Hmf Hidle Hback.
  eexists _, _, _. split.
  { by apply (ThreadPool_start_thinking_eq _ _ _ _ _ m mf rest sl back). }
  simpl. split; [done|]. split.
  { apply Forall_cons. split; [by repeat split|].
    apply Forall_map, Forall_forall. intros th _. by repeat split. }
  split; [done|]. split; [done|]. split; [done|].
  rewrite map_map. by apply map_ext.
Qed.

(** C8, amended.  A call of [start_thinking] that returns has called
    [rank_root_moves] exactly once when the root-move list built from
    the legal moves and the allow-list is not empty, passing it that
    list, and not at all when the list is empty. *)
Theorem start_thinking_ranks_nonempty_root_moves (pos : Position)
    (states : option (list StateInfo)) (lim : LimitsType) (ponderMode : bool)
    (tp : ThreadPool) (r : ThreadPool * option (list StateInfo)) :
  ThreadPool_start_thinking pos states lim ponderMode tp = Done r →
  calls r.1
  = calls tp ++ match built_root_moves pos lim with
                | [] => []
                | _ :: _ => [CallRankRootMoves pos (built_root_moves pos lim)]
                end
  ∧ rank_calls (calls r.1)
    = (rank_calls (calls tp)
       + match built_root_moves pos lim with [] => 0 | _ :: _ => 1 end)%nat.
Proof.
  intros Hrun.
  destruct (ThreadPool_start_thinking_inv _ _ _ _ _ _ Hrun)
    as (m & mf & rest & sl & back & Hths & Hmf & Hidle & Hsl & Hback).
  rewrite (ThreadPool_start_thinking_eq _ _ _ _ _ m mf rest sl back)
    in Hrun by done.
  injection Hrun as <-. simpl. split; [done|].
  unfold rank_calls, rank_call. rewrite filter_app, length_app.
  by destruct (built_root_moves pos lim).
Qed.

End PoolProperties.

(** ** Process-wide one-time initialisation *)

Section OnceInitProperties.
Import OnceInit.
Local Open Scope nat_scope.

Lemma Inv_start n : Inv (start n).
Proof.
  split; simpl; try done.
  - intros j pc [-> _]%lookup_replicate. done.
  - intros j pc [-> _]%lookup_replicate. done.
  - intros j [? _]%lookup_replicate. done.
  - by left.
Qed.

Lemma Inv_step i s s' : Inv s → step i s = Some s' → Inv s'.
Proof.
  intros [Ha Hf Hb Hc Hd He]. unfold step.
  destruct (sessions s !! i) as [pc|] eqn:Hi; [|done].
  destruct pc.
  - destruct (mtx s) as [k|] eqn:Hm; [done|]. intros [= <-].
    split; simpl.
    + intros j pc [(-> & _ & _)|[Hne Hj]]%list_lookup_insert_Some Hpc; [done|].
      by specialize (Ha j pc Hj Hpc).
    + intros j [= <-]. exists Locked. split; [|done].
      apply list_lookup_insert_eq. by eapply lookup_lt_Some.
    + done.
    + intros j pc [(-> & <- & _)|[Hne Hj]]%list_lookup_insert_Some Hpc; [done|].
      by eapply Hc.
    + intros j [(-> & ? & _)|[Hne Hj]]%list_lookup_insert_Some; [done|].
      by eapply Hd.
    + intros Hflag. destruct (He Hflag) as [?|[j Hj]]; [by left|].
      right. exists j. rewrite list_lookup_insert_ne; [done|].
      intros ->. congruence.
  - intros [= <-].
    pose proof (Ha i Locked Hi eq_refl) as Hm.
    split; simpl.
    + intros j pc [(-> & _ & _)|[Hne Hj]]%list_lookup_insert_Some Hpc; [done|].
      by specialize (Ha j pc Hj Hpc).
    + intros j Hj. rewrite Hm in Hj. injection Hj as <-. exists Checked. split; [|done].
      apply list_lookup_insert_eq. by eapply lookup_lt_Some.
    + intros Hflag. rewrite Hflag. by apply Hb.
    + intros j pc [(-> & <- & _)|[Hne Hj]]%list_lookup_insert_Some Hpc; [done|].
      by eapply Hc.
    + intros j Hj. destruct (bitboards_initialized s) eqn:Hflag; [by apply Hb|].
      destruct (He eq_refl) as [->|[k Hk]]; [done|].
      pose proof (Ha k Checked Hk eq_refl). congruence.
    + intros Hflag. right. exists i. apply list_lookup_insert_eq. by eapply lookup_lt_Some.
  - intros [= <-].
    pose proof (Ha i Checked Hi eq_refl) as Hm.
    split; simpl.
    + intros j pc [(-> & _ & _)|[Hne Hj]]%list_lookup_insert_Some Hpc; [done|].
      by specialize (Ha j pc Hj Hpc).
    + intros j Hj. rewrite Hm in Hj. injection Hj as <-. exists FlagSet. split; [|done].
      apply list_lookup_insert_eq. by eapply lookup_lt_Some.
    + intros _. by eapply Hd.
    + done.
    + intros j [(-> & ? & _)|[Hne Hj]]%list_lookup_insert_Some; [done|].
      by eapply Hd.
    + done.
  - intros [= <-].
    pose proof (Ha i FlagSet Hi eq_refl) as Hm.
    pose proof (Hc i FlagSet Hi eq_refl) as Hflag.
    split; simpl.
    + intros j pc [(-> & <- & _)|[Hne Hj]]%list_lookup_insert_Some Hpc; [done|].
      specialize (Ha j pc Hj Hpc). congruence.
    + done.
    + done.
    + done.
    + intros j _. by apply Hb.
    + intros Hf'. congruence.
  - done.
Qed.

Lemma once_run_app l1 l2 s : run (l1 ++ l2) s = run l2 (run l1 s).
Proof. revert s. induction l1 as [|i l1 IH]; intros s; simpl; [done | apply IH]. Qed.

Lemma Inv_run sched s : Inv s → Inv (run sched s).
Proof.
  revert s. induction sched as [|i sched IH]; intros s Hs; simpl; [done|].
  apply IH. destruct (step i s) as [s'|] eqn:Hstep; simpl; [|done].
  by eapply Inv_step.
Qed.

Lemma once_step_length i s s' : step i s = Some s' → length (sessions s') = length (sessions s).
Proof.
  unfold step. destruct (sessions s !! i) as [[]|]; try done;
    try (intros [= <-]; simpl; by rewrite length_insert).
  destruct (mtx s); [done|]. intros [= <-]; simpl; by rewrite length_insert.
Qed.

Lemma once_run_length sched s : length (sessions (run sched s)) = length (sessions s).
Proof.
  revert s. induction sched as [|i sched IH]; intros s; simpl; [done|].
  rewrite IH. destruct (step i s) as [s'|] eqn:Hstep; simpl; [|done].
  by eapply once_step_length.
Qed.

Lemma Inv_at_most_once s : Inv s → init_calls s ≤ 1.
Proof.
  intros [Ha Hf Hb Hc Hd He].
  destruct (bitboards_initialized s) eqn:Hflag.
  - rewrite Hb; done.
  - destruct (He eq_refl) as [->|[j Hj]]; [lia|]. by rewrite (Hd j Hj).
Qed.

Lemma Inv_past_check s i pc :
  Inv s → sessions s !! i = Some pc → past_check pc = true → init_calls s = 1.
Proof.
  intros [Ha Hf Hb Hc Hd He] Hi Hpc.
  destruct pc; try done.
  - by eapply Hd.
  - apply Hb. by eapply Hc.
  - apply Hb. by eapply Hc.
Qed.

Lemma Inv_progress s :
  Inv s → all_released s = false → ∃ i, is_Some (step i s).
Proof.
  intros [Ha Hf Hb Hc Hd He] Hall.
  destruct (mtx s) as [k|] eqn:Hm.
  - destruct (Hf k eq_refl) as (pc & Hk & Hpc). exists k.
    unfold step. rewrite Hk. destruct pc; try done; by eexists.
  - unfold all_released in Hall.
    apply not_true_iff_false in Hall. rewrite forallb_forall in Hall.
    assert (∃ i pc, sessions s !! i = Some pc ∧ is_released pc = false)
      as (i & pc & Hi & Hpc).
    { clear -Hall. induction (sessions s) as [|pc l IH].
      - destruct Hall. by intros ? [].
      - destruct (is_released pc) eqn:Hpc.
        + destruct IH as (i & pc' & Hi & Hpc').
          { intros Hl. apply Hall. intros x [<-|Hx]; [done | by apply Hl]. }
          by exists (S i), pc'.
        + by exists 0, pc. }
    exists i. unfold step. rewrite Hi, Hm.
    destruct pc; try done; try by eexists.
    all: pose proof (Ha i _ Hi eq_refl); congruence.
Qed.

Lemma once_run_cons_step i rest s s' :
  step i s = Some s' → run (i :: rest) s = run rest s'.
Proof. intros Hstep. simpl. by rewrite Hstep. Qed.

Lemma session_block j s :
  mtx s = None → sessions s !! j = Some BeforeLock →
  run [j; j; j; j] s
  = {| mtx := None; bitboards_initialized := true;
       init_calls := if bitboards_initialized s then init_calls s
                     else S (init_calls s);
       sessions := <[j := Released]> (sessions s) |}.
Proof.
  intros Hm Hj. pose proof (lookup_lt_Some _ _ _ Hj) as Hlt.
  erewrite once_run_cons_step; last first.
  { unfold step. rewrite Hj, Hm. reflexivity. }
  erewrite once_run_cons_step; last first.
  { unfold step. cbn [sessions].
    rewrite list_lookup_insert_eq by done. reflexivity. }
  erewrite once_run_cons_step; last first.
  { unfold step. cbn [sessions].
    rewrite list_lookup_insert_eq by (by rewrite length_insert). reflexivity. }
  erewrite once_run_cons_step; last first.
  { unfold step. cbn [sessions].
    rewrite list_lookup_insert_eq by (by rewrite !length_insert). reflexivity. }
  cbn [run mtx bitboards_initialized init_calls sessions].
  by rewrite !list_insert_insert_eq.
Qed.

Lemma replicate_app_cons {A} (k : nat) (x : A) (l : list A) :
  replicate k x ++ x :: l = x :: replicate k x ++ l.
Proof. induction k as [|k IH]; simpl; [done | by rewrite IH]. Qed.

Lemma one_after_another_prefix n j :
  j ≤ n →
  run (flat_map (λ i, [i; i; i; i]) (seq 0 j)) (start n)
  = {| mtx := None;
       bitboards_initialized := if j is O then false else true;
       init_calls := if j is O then 0 else 1;
       sessions := replicate j Released ++ replicate (n - j) BeforeLock |}.
Proof.
  induction j as [|j IH]; intros Hj.
  - simpl. unfold start. by rewrite Nat.sub_0_r.
  - rewrite seq_S, flat_map_app, once_run_app, IH by lia. simpl flat_map.
    rewrite session_block; simpl.
    + f_equal.
      * by destruct j.
      * rewrite insert_app_r_alt by (by rewrite length_replicate).
        rewrite length_replicate, Nat.sub_diag.
        replace (n - j) with (S (n - S j)) by lia. simpl.
        apply replicate_app_cons.
    + done.
    + rewrite lookup_app_r by (by rewrite length_replicate).
      rewrite length_replicate, Nat.sub_diag.
      by replace (n - j) with (S (n - S j)) by lia.
Qed.

Lemma one_after_another_completes n :
  all_released (run (one_after_another n) (start n)) = true.
Proof.
  unfold one_after_another. rewrite one_after_another_prefix by done.
  unfold all_released. simpl. rewrite Nat.sub_diag. simpl. rewrite app_nil_r.
  apply forallb_forall. intros pc Hin. apply list_elem_of_In in Hin.
  by apply elem_of_replicate in Hin as [-> _].
Qed.

(** C3. For every number n of sessions started concurrently and every
    interleaving of their steps, [Bitboards::init] has been called at
    most once; it has been called exactly once as soon as one session is
    past the test of the flag, in particular when all n > 0 sessions
    have left the block; the block is guarded by the one mutex (at most
    the holder is inside); no interleaving gets stuck before all
    sessions have left it, and they all do when run one after another. *)
Theorem bitboards_init_runs_exactly_once (n : nat) (sched : list nat) :
  let s := run sched (start n) in
  init_calls s ≤ 1
  ∧ (∀ i pc, sessions s !! i = Some pc → past_check pc = true →
             init_calls s = 1)
  ∧ (all_released s = true → 0 < n → init_calls s = 1)
  ∧ (∀ i pc, sessions s !! i = Some pc → in_block pc = true → mtx s = Some i)
  ∧ (all_released s = false → ∃ i, is_Some (step i s))
  ∧ all_released (run (one_after_another n) (start n)) = true.
Proof.
  intros s.
  assert (Inv s) as Hinv by apply Inv_run, Inv_start.
  split; [by apply Inv_at_most_once|].
  split; [intros i pc; by apply Inv_past_check|].
  split.
  { intros Hall Hn.
    assert (length (sessions s) = n) as Hlen.
    { unfold s. rewrite once_run_length. simpl. apply length_replicate. }
    destruct (sessions s) as [|pc l] eqn:Hs; [simpl in Hlen; lia|].
    unfold all_released in Hall. rewrite Hs in Hall. simpl in Hall.
    apply andb_true_iff in Hall as [Hpc _].
    apply (Inv_past_check s 0 pc Hinv); [by rewrite Hs|by destruct pc]. }
  split; [by destruct Hinv|].
  split; [by apply Inv_progress|].
  apply one_after_another_completes.
Qed.

End OnceInitProperties.

(** ** The park/wake protocol *)

Section ParkProperties.
Import Park.
Local Open Scope nat_scope.

Lemma park_run_closed (states : list State) :
  (∀ a p, In p states → In (default p (step a p)) states) →
  ∀ sched p, In p states → In (run sched p) states.
Proof.
  intros Hclosed. induction sched as [|a sched IH]; intros p Hp; simpl; [done|].
  apply IH. by apply Hclosed.
Qed.


Lemma dtor_states_closed a p :
  In p dtor_states → In (default p (step a p)) dtor_states.
Proof.
  unfold dtor_states. simpl.
  intros [<-|[<-|[<-|[<-|[<-|[<-|[]]]]]]]; destruct a; simpl; auto 10.
Qed.


Lemma dtor_states_facts p :
  In p dtor_states →
  aborted p = false
  ∧ worker p ≠ InSearch
  ∧ (client p = [] →
       worker p = Returned
       ∧ flags p = request_exit {| exit := false; searching := false |})
  ∧ (client p ≠ [] → ∃ a, is_Some (step a p)).
Proof.
  unfold dtor_states. simpl.
  intros [<-|[<-|[<-|[<-|[<-|[<-|[]]]]]]]; simpl;
    (split; [done|]); (split; [done|]); split; try done; intros _.
  - exists Client. by eexists.
  - exists Client. by eexists.
  - exists Client. by eexists.
  - exists Worker. by eexists.
  - exists Client. by eexists.
Qed.


(** C5, amended.  [~Thread] sets [exit] and then calls
    [start_searching()]: termination and "start a search" both raise
    the one flag [searching] on which [idle_loop] waits, and differ only
    in [exit], which the loop tests after waking.  From a parked thread,
    in every interleaving, the assertion holds, [search()] is never
    entered, the join completes only once [idle_loop] has returned, and
    no state before that is stuck; with [exit] unset the same wake-up
    makes the loop enter [search()]; on a searching thread the
    assertion fails. *)
Theorem dtor_exit_shares_the_search_flag (sched : list Agent) :
  let idle := {| exit := false; searching := false |} in
  let p := run sched (parked_idle Thread_dtor_body) in
  request_exit idle = {| exit := true; searching := true |}
  ∧ start_searching idle = {| exit := false; searching := true |}
  ∧ wake_predicate (request_exit idle) = wake_predicate (start_searching idle)
  ∧ aborted p = false
  ∧ worker p ≠ InSearch
  ∧ (client p = [] → worker p = Returned ∧ flags p = request_exit idle)
  ∧ (client p ≠ [] → ∃ a, is_Some (step a p))
  ∧ worker (run [Client; Worker] (parked_idle [CStart])) = InSearch
  ∧ (∀ e w, aborted (run [Client]
                       {| flags := {| exit := e; searching := true |};
                          worker := w; client := Thread_dtor_body;
                          aborted := false |}) = true).
Proof.
  intros idle p.
  assert (In p dtor_states) as Hp.
  { apply park_run_closed; [apply dtor_states_closed | by left]. }
  destruct (dtor_states_facts p Hp) as (H1 & H2 & H3 & H4).
  do 3 (split; [reflexivity|]).
  do 4 (split; [done|]).
  split; [reflexivity|]. by intros e w.
Qed.

End ParkProperties.

(** ** Session set-up *)

Section SessionProperties.
Import Session.

(** The status is non-zero exactly when a pipe or the thread could not
    be created, provided no descriptor handed out is 0. *)
Lemma pipe_wrapper_status (env : Env) (fds : gset Z) :
  0 ∉ opened env →
  (pipe_wrapper env fds).1 = if creation_fails env then 1 else 0.
Proof.
  unfold pipe_wrapper, opened, creation_fails.
  destruct (pipe_fd_in env) as [[in0 in1]|]; [|done].
  destruct (pipe_fd_out env) as [[out0 out1]|]; [|done].
  intros Hz.
  assert (in1 ≠ 0 ∧ out0 ≠ 0) as [Hin1 Hout0] by set_solver.
  unfold filebuf2_open, filebuf2_close, filebuf2_is_open, filebuf2_new,
    session_thread.
  simpl.
  apply Z.eqb_neq in Hin1, Hout0. rewrite Hin1, Hout0. simpl.
  by destruct (pthread_create_ok env).
Qed.

(** C4, at the failing inputs.  When the second [pipe] fails the status
    is 1 and both descriptors of the first pipe are still open; when
    [pthread_create] fails the status is 1 and the two descriptors meant
    for the session thread are still open; when nothing fails the status
    is 0 and every descriptor obtained has been closed. *)
Theorem pipe_wrapper_leaves_descriptors_open :
  pipe_wrapper {| pipe_fd_in := Some (3, 4); pipe_fd_out := None;
                  pthread_create_ok := true; pthread_join_ok := true |}
               {[0; 1; 2]}
  = (1, {[0; 1; 2; 3; 4]})
  ∧ pipe_wrapper {| pipe_fd_in := Some (3, 4); pipe_fd_out := Some (5, 6);
                    pthread_create_ok := false; pthread_join_ok := true |}
                 {[0; 1; 2]}
    = (1, {[0; 1; 2; 3; 6]})
  ∧ pipe_wrapper {| pipe_fd_in := Some (3, 4); pipe_fd_out := Some (5, 6);
                    pthread_create_ok := true; pthread_join_ok := true |}
                 {[0; 1; 2]}
    = (0, {[0; 1; 2]}).
Proof.
  repeat split; apply pair_eq; (split; [reflexivity|]);
    apply set_eq; intros x; vm_compute; set_solver.
Qed.

End SessionProperties.

(** * Further properties of the code *)

(** ** The pool *)

Section PoolMore.
Context `{Types_h} `{Collaborators}.

Lemma accumulate_mod (member : Thread → Z) (ths : list Thread) :
  accumulate member ths = (foldr (λ th acc, member th + acc) 0 ths) `mod` 2 ^ 64.
Proof.
  unfold accumulate.
  assert (∀ acc, foldl (λ sum th, uint64 (sum + member th)) (uint64 acc) ths
                 = (acc + foldr (λ th a, member th + a) 0 ths) `mod` 2 ^ 64) as Hgen.
  { induction ths as [|th ths IH]; intros acc; simpl.
    - unfold uint64. f_equal. lia.
    - replace (uint64 (uint64 acc + member th))
        with (uint64 (acc + member th))
        by (unfold uint64; by rewrite Zplus_mod_idemp_l).
      rewrite IH. f_equal. lia. }
  specialize (Hgen 0). by rewrite Z.add_0_l in Hgen.
Qed.

Lemma wait_loop_spec (i : nat) (ths : list Thread) :
  wait_loop i ths
  = if forallb idle (match i with O => tail ths | S _ => ths end)
    then Done () else Blocks.
Proof.
  revert i. induction ths as [|th ths IH]; intros i; simpl.
  - by destruct i.
  - rewrite IH. destruct i as [|i]; simpl; [done|].
    unfold Thread_wait_for_search_finished, Park.finished_predicate, idle.
    by destruct (searching (sync th)).
Qed.


(** X1.  When no counter is negative and their sum fits 64 bits,
    [nodes_searched] is that sum. *)
Theorem nodes_searched_sum (tp : ThreadPool) :
  Forall (λ th, 0 ≤ nodes th) (threads tp) →
  foldr (λ th acc, nodes th + acc) 0 (threads tp) < 2 ^ 64 →
  nodes_searched tp = foldr (λ th acc, nodes th + acc) 0 (threads tp).
Proof.
  intros Hpos Hfit. unfold nodes_searched. rewrite accumulate_mod.
  apply Z.mod_small. split; [|done].
  clear Hfit. induction Hpos as [|th l Hth _ IH]; simpl; lia.
Qed.

(** X3.  The pool-level wait returns exactly when every thread other
    than the one in slot 0 is idle; the main thread's own flag plays no
    part, and an empty pool does not block. *)
Theorem pool_wait_ignores_main (tp : ThreadPool) :
  ThreadPool_wait_for_search_finished tp
  = if forallb idle (tail (threads tp)) then Done tp else Blocks.
Proof.
  unfold ThreadPool_wait_for_search_finished.
  rewrite wait_loop_spec. by destruct (forallb idle (tail (threads tp))).
Qed.

Lemma imap_start_searching_tail (ths : list Thread) :
  imap (λ i th, if decide (i = 0%nat) then th else Thread_start_searching th) ths
  = match ths with
    | [] => []
    | m :: rest => m :: map Thread_start_searching rest
    end.
Proof.
  destruct ths as [|m rest]; [done|]. simpl. f_equal.
  induction rest as [|th rest IH]; [done|].
  simpl. f_equal.
  assert (∀ k (l : list Thread),
            imap ((λ i th, if decide (i = 0%nat) then th
                           else Thread_start_searching th) ∘ S ∘ (λ i, (k + i)%nat)) l
            = map Thread_start_searching l) as Hshift.
  { intros k l. revert k. induction l as [|th' l IHl]; intros k; [done|].
    simpl. f_equal. rewrite <- (IHl (S k)). apply imap_ext.
    intros i x _. simpl. by replace (k + S i)%nat with (S k + i)%nat by lia. }
  rewrite <- (Hshift 1%nat). by apply imap_ext.
Qed.

(** X4.  [start_searching] raises the flag of every thread but the one in
    slot 0 and changes nothing else; a pool-level wait issued right
    after it returns at once for a pool of at most one thread and blocks
    otherwise. *)
Theorem start_searching_then_wait (tp : ThreadPool) :
  threads (ThreadPool_start_searching tp)
  = match threads tp with
    | [] => []
    | m :: rest => m :: map Thread_start_searching rest
    end
  ∧ ThreadPool_wait_for_search_finished (ThreadPool_start_searching tp)
    = if (length (threads tp) <=? 1)%nat
      then Done (ThreadPool_start_searching tp) else Blocks.
Proof.
  assert (threads (ThreadPool_start_searching tp)
          = match threads tp with
            | [] => []
            | m :: rest => m :: map Thread_start_searching rest
            end) as Hths.
  { unfold ThreadPool_start_searching. simpl. apply imap_start_searching_tail. }
  split; [done|].
  unfold ThreadPool_wait_for_search_finished.
  rewrite wait_loop_spec, Hths.
  destruct (threads tp) as [|m [|th rest]]; done.
Qed.




Lemma fill_fill {A} (v : A) (t : list A) : fill v (fill v t) = fill v t.
Proof. unfold fill. rewrite map_map. done. Qed.

Lemma Thread_clear_idem (th : Thread) :
  Thread_clear (Thread_clear th) = Thread_clear th.
Proof.
  unfold Thread_clear. simpl.
  destruct (continuationHistory (tables th)) as [[h00 h01] [h10 h11]]. simpl.
  assert (∀ h : list (list (list Z)),
            map (map (fill (-71))) (map (map (fill (-71))) h)
            = map (map (fill (-71))) h) as Hone.
  { intros h. rewrite map_map. apply map_ext. intros row.
    rewrite map_map. apply map_ext. intros cell. apply fill_fill. }
  by rewrite !fill_fill, !Hone.
Qed.

(** X7.  [clear] is idempotent, and it touches neither the flags, the
    counters, the root moves nor the depths of any thread, nor the size
    of any table. *)
Theorem clear_idempotent_and_local (tp tp1 : ThreadPool) :
  ThreadPool_clear tp = Done tp1 →
  ThreadPool_clear tp1 = Done tp1
  ∧ length (threads tp1) = length (threads tp)
  ∧ ∀ i th th1, threads tp !! i = Some th → threads tp1 !! i = Some th1 →
      sync th1 = sync th ∧ idx th1 = idx th
      ∧ nodes th1 = nodes th ∧ tbHits th1 = tbHits th
      ∧ rootMoves th1 = rootMoves th
      ∧ rootDepth th1 = rootDepth th ∧ completedDepth th1 = completedDepth th
      ∧ length (counterMoves (tables th1)) = length (counterMoves (tables th))
      ∧ length (mainHistory (tables th1)) = length (mainHistory (tables th))
      ∧ length (captureHistory (tables th1))
        = length (captureHistory (tables th)).
Proof.
  unfold ThreadPool_clear, main_update.
  destruct (threads tp) as [|m rest] eqn:Hths; [done|]. simpl.
  destruct (mainPart m) as [mf|] eqn:Hmf; [|done]. simpl.
  intros [= <-]. simpl.
  split.
  { assert (∀ x th, Thread_clear (Thread_with_mainPart x th)
                    = Thread_with_mainPart x (Thread_clear th)) as Hcomm by done.
    rewrite Hcomm, Thread_clear_idem, map_map.
    rewrite (map_ext _ Thread_clear Thread_clear_idem). done. }
  split; [by rewrite length_map|].
  intros [|i] th th1 Hi Hi1; simpl in Hi, Hi1.
  - injection Hi as <-. injection Hi1 as <-. simpl.
    unfold fill. by rewrite !length_map.
  - rewrite list_lookup_fmap, Hi in Hi1. injection Hi1 as <-. simpl.
    unfold fill. by rewrite !length_map.
Qed.

(** X8.  How [start_thinking] ends, from the pool and the handles: it
    is undefined on an empty pool or when slot 0 is no main thread,
    blocks while the main thread is searching, aborts on its assertion
    when neither the caller nor the pool holds a history, is undefined
    when the history in use is an empty deque, and returns otherwise. *)
Theorem start_thinking_outcome (pos : Position)
    (states : option (list StateInfo)) (lim : LimitsType) (ponderMode : bool)
    (tp : ThreadPool) :
  kind_of (ThreadPool_start_thinking pos states lim ponderMode tp)
  = match threads tp with
    | [] => KUndefined
    | m :: _ =>
        if is_main m then
          if searching (sync m) then KBlocks
          else match states, setupStates tp with
               | None, None => KAborts
               | Some sl, _ | None, Some sl =>
                   match sl with [] => KUndefined | _ :: _ => KDone end
               end
        else KUndefined
    end.
Proof.
  destruct (threads tp) as [|m rest] eqn:Hths.
  { unfold ThreadPool_start_thinking. by rewrite Hths. }
  unfold is_main. destruct (mainPart m) as [mf|] eqn:Hmf; last first.
  { unfold ThreadPool_start_thinking. rewrite Hths. simpl. by rewrite Hmf. }
  destruct (searching (sync m)) eqn:Hm.
  { unfold ThreadPool_start_thinking. rewrite Hths. simpl. rewrite Hmf. simpl.
    unfold Thread_wait_for_search_finished, Park.finished_predicate.
    by rewrite Hm. }
  destruct (match states with Some s => Some s | None => setupStates tp end)
    as [sl|] eqn:Hsl.
  - destruct (last sl) as [back|] eqn:Hback.
    + rewrite (ThreadPool_start_thinking_eq _ _ _ _ _ m mf rest sl back)
        by done.
      destruct sl; [done|].
      by destruct states, (setupStates tp); simplify_eq.
    + assert (sl = []) as -> by (by apply last_None).
      destruct (ThreadPool_start_thinking pos states lim ponderMode tp)
        as [r| | |] eqn:Hrun.
      * destruct (ThreadPool_start_thinking_inv _ _ _ _ _ _ Hrun)
          as (m' & mf' & rest' & sl' & back' & _ & _ & _ & Hsl' & Hback').
        rewrite Hsl in Hsl'. by injection Hsl' as <-.
      * exfalso. revert Hrun. unfold ThreadPool_start_thinking, main_update.
        rewrite Hths. simpl. rewrite Hmf. simpl.
        unfold Thread_wait_for_search_finished, Park.finished_predicate.
        rewrite Hm. simpl.
        destruct (match map RootMove_of _ with [] => _ | _ :: _ => _ end).
        destruct states, (setupStates tp); simplify_eq; simpl; done.
      * exfalso. revert Hrun. unfold ThreadPool_start_thinking, main_update.
        rewrite Hths. simpl. rewrite Hmf. simpl.
        unfold Thread_wait_for_search_finished, Park.finished_predicate.
        rewrite Hm. simpl.
        destruct (match map RootMove_of _ with [] => _ | _ :: _ => _ end).
        destruct states, (setupStates tp); simplify_eq; simpl; done.
      * by destruct states, (setupStates tp); simplify_eq.
  - destruct states; [done|]. rewrite Hsl.
    unfold ThreadPool_start_thinking, main_update.
    rewrite Hths. simpl. rewrite Hmf. simpl.
    unfold Thread_wait_for_search_finished, Park.finished_predicate.
    rewrite Hm. simpl.
    destruct (match map RootMove_of _ with [] => _ | _ :: _ => _ end).
    by rewrite Hsl.
Qed.

(** X9.  A second [start_thinking] blocks until the main thread has
    reported its search finished; it then returns even with the handle
    the first call emptied, and the pool keeps the history it
    retained. *)
Theorem start_thinking_again_reuses_history (pos pos' : Position)
    (states : option (list StateInfo)) (lim lim' : LimitsType)
    (ponderMode ponderMode' : bool) (tp tp1 : ThreadPool)
    (h1 : option (list StateInfo)) :
  ThreadPool_start_thinking pos states lim ponderMode tp = Done (tp1, h1) →
  h1 = None
  ∧ ThreadPool_start_thinking pos' h1 lim' ponderMode' tp1 = Blocks
  ∧ ∃ m1 rest1 sl tp2,
      threads tp1 = m1 :: rest1
      ∧ setupStates tp1 = Some sl
      ∧ ThreadPool_start_thinking pos' h1 lim' ponderMode'
          (ThreadPool_with_threads (Thread_search_finished m1 :: rest1) tp1)
        = Done (tp2, None)
      ∧ setupStates tp2 = Some sl.
Proof.
  intros Hrun.
  destruct (ThreadPool_start_thinking_inv _ _ _ _ _ _ Hrun)
    as (m & mf & rest & sl & back & Hths & Hmf & Hidle & Hsl & Hback).
  rewrite (ThreadPool_start_thinking_eq _ _ _ _ _ m mf rest sl back)
    in Hrun by done.
  injection Hrun as <- <-. split; [done|]. split.
  { unfold ThreadPool_start_thinking. simpl. done. }
  eexists _, _, sl, _. split; [reflexivity|]. split; [reflexivity|].
  split.
  - by eapply ThreadPool_start_thinking_eq.
  - reflexivity.
Qed.




(** What one iteration of the third loop decides: the current best is
    kept, or the candidate replaces it after passing one of the two
    tests on the scores. *)
Lemma select_step_inv (threads : list Thread) (votes : gmap Z Z)
    (minScore : Z) (b i r : nat) (th : Thread) :
  select_step threads votes minScore b i th = Some r →
  ∃ bt brm rm,
    threads !! b = Some bt
    ∧ rootMoves bt !! 0%nat = Some brm
    ∧ rootMoves th !! 0%nat = Some rm
    ∧ (r = b
       ∨ (r = i
          ∧ ((VALUE_TB_WIN_IN_MAX_PLY ≤ int32 (Z.abs (score brm))
              ∧ score brm < score rm)
             ∨ (¬ VALUE_TB_WIN_IN_MAX_PLY ≤ int32 (Z.abs (score brm))
                ∧ (VALUE_TB_WIN_IN_MAX_PLY ≤ score rm
                   ∨ VALUE_TB_LOSS_IN_MAX_PLY < score rm))))).
Proof.
  unfold select_step. intros Hstep.
  destruct (threads !! b) as [bt|] eqn:Hb; [|done]. simpl in Hstep.
  destruct (rootMoves bt !! 0%nat) as [brm|] eqn:Hbrm; [|done]. simpl in Hstep.
  destruct (rootMoves th !! 0%nat) as [rm|] eqn:Hrm;
    [|case_decide; simplify_option_eq]. simpl in Hstep.
  exists bt, brm, rm. do 3 (split; [done|]).
  repeat case_decide; simplify_option_eq; repeat case_decide;
    simplify_eq; auto 10.
Qed.

(** The third loop, in the mate branch throughout. *)
Lemma select_step_mate (threads : list Thread) (votes : gmap Z Z)
    (minScore : Z) (b i : nat) (bt th : Thread) (brm rm : RootMove) :
  threads !! b = Some bt →
  rootMoves bt !! 0%nat = Some brm → rootMoves th !! 0%nat = Some rm →
  VALUE_TB_WIN_IN_MAX_PLY ≤ int32 (Z.abs (score brm)) →
  select_step threads votes minScore b i th
  = Some (if decide (score brm < score rm) then i else b).
Proof.
  intros Hb Hbrm Hrm Hmate. unfold select_step.
  rewrite Hb. simpl. rewrite Hbrm. simpl. rewrite Hrm. simpl.
  by rewrite decide_True.
Qed.

(** Induction over the third loop. *)
Lemma select_loop_invariant (threads : list Thread) (votes : gmap Z Z)
    (minScore : Z) (P : nat → nat → Prop) :
  (∀ i b th r, threads !! i = Some th → P i b →
     select_step threads votes minScore b i th = Some r → P (S i) r) →
  ∀ ths i b r,
    (∀ j th, ths !! j = Some th → threads !! (i + j)%nat = Some th) →
    P i b →
    select_loop threads votes minScore ths i b = Some r →
    P (i + length ths)%nat r.
Proof.
  intros Hstep. induction ths as [|th ths IH]; intros i b r Hpos HP; simpl.
  - intros [= <-]. by rewrite Nat.add_0_r.
  - destruct (select_step threads votes minScore b i th) as [b'|] eqn:Hs;
      [|done]. simpl. intros Hloop.
    replace (i + S (length ths))%nat with (S i + length ths)%nat by lia.
    apply (IH (S i) b' r); [|by eapply Hstep; [|done..]; rewrite <- (Hpos 0%nat th eq_refl); f_equal; lia|done].
    intros j th' Hj. rewrite <- (Hpos (S j) th' Hj). f_equal. lia.
Qed.

Lemma get_best_thread_inv (threads : list Thread) (b : nat)
    (P : nat → nat → Prop) :
  get_best_thread threads = Some b →
  P 0%nat 0%nat →
  (∀ votes minScore i b th r, threads !! i = Some th → P i b →
     select_step threads votes minScore b i th = Some r → P (S i) r) →
  P (length threads) b.
Proof.
  unfold get_best_thread. intros Hbest H0' Hstep.
  destruct (threads !! 0%nat) as [main|]; [|done]. simpl in Hbest.
  destruct (min_score_loop threads VALUE_NONE) as [minScore|]; [|done].
  simpl in Hbest.
  destruct (vote_loop minScore threads ∅) as [votes|]; [|done].
  simpl in Hbest.
  apply (select_loop_invariant threads votes minScore P (Hstep votes minScore)
           threads 0%nat 0%nat b); done.
Qed.

(** X12.  Whenever [get_best_thread] returns, the slot it returns is a
    slot of the pool. *)
Theorem get_best_thread_in_pool (threads : list Thread) (b : nat) :
  get_best_thread threads = Some b → is_Some (threads !! b).
Proof.
  intros Hbest.
  apply (get_best_thread_inv threads b (λ _ b, is_Some (threads !! b)) Hbest).
  - unfold get_best_thread in Hbest.
    destruct (threads !! 0%nat); [by eexists | done].
  - intros votes minScore i b' th r Hi Hb' Hstep.
    apply select_step_inv in Hstep as (_ & _ & _ & _ & _ & _ & [->|[-> _]]);
      [done | by eexists].
Qed.

(** X13.  A worker whose line is lost at tablebase level is never
    preferred to a main thread whose line is not. *)
Theorem get_best_thread_never_picks_lost_line (threads : list Thread)
    (b : nat) (main bt : Thread) :
  VALUE_TB_LOSS_IN_MAX_PLY < VALUE_TB_WIN_IN_MAX_PLY →
  threads !! 0%nat = Some main →
  VALUE_TB_LOSS_IN_MAX_PLY < first_score main →
  get_best_thread threads = Some b →
  threads !! b = Some bt →
  VALUE_TB_LOSS_IN_MAX_PLY < first_score bt.
Proof.
  intros Hconst Hmain Hscore Hbest Hbt.
  assert (∃ bt', threads !! b = Some bt'
                 ∧ VALUE_TB_LOSS_IN_MAX_PLY < first_score bt')
    as (bt' & Hbt' & Hres).
  { apply (get_best_thread_inv threads b
             (λ _ b, ∃ bt', threads !! b = Some bt'
                            ∧ VALUE_TB_LOSS_IN_MAX_PLY < first_score bt')
             Hbest).
    - by exists main.
    - intros votes minScore i b' th r Hi (bt' & Hb' & Hlt) Hstep.
      apply select_step_inv in Hstep
        as (bt'' & brm & rm & Hb'' & Hbrm & Hrm & Hcase).
      rewrite Hb' in Hb''. injection Hb'' as <-.
      destruct Hcase as [->|[-> Hcase]]; [by exists bt'|].
      exists th. split; [done|].
      rewrite (first_score_lookup th rm Hrm).
      rewrite (first_score_lookup bt' brm Hbrm) in Hlt. lia. }
  rewrite Hbt in Hbt'. by injection Hbt' as <-.
Qed.

(** X14.  When the main thread's score is a tablebase win or better, the
    thread returned has the highest score of the pool and is the first
    thread with that score: the shortest mate wins. *)
Theorem get_best_thread_picks_shortest_mate (threads : list Thread)
    (b : nat) (main : Thread) :
  Forall (λ th, - 2 ^ 31 < first_score th < 2 ^ 31) threads →
  threads !! 0%nat = Some main →
  VALUE_TB_WIN_IN_MAX_PLY ≤ first_score main →
  get_best_thread threads = Some b →
  ∃ bt, threads !! b = Some bt
        ∧ (∀ th, th ∈ threads → first_score th ≤ first_score bt)
        ∧ (∀ j th, (j < b)%nat → threads !! j = Some th →
                   first_score th < first_score bt).
Proof.
  intros Hrange Hmain Hwin Hbest.
  rewrite Forall_lookup in Hrange.
  pose (P := λ (i b : nat),
          ∃ bt, threads !! b = Some bt
                ∧ VALUE_TB_WIN_IN_MAX_PLY ≤ first_score bt
                ∧ (∀ j th, (j < i)%nat → threads !! j = Some th →
                           first_score th ≤ first_score bt)
                ∧ (∀ j th, (j < b)%nat → threads !! j = Some th →
                           first_score th < first_score bt)).
  assert (P (length threads) b) as (bt & Hbt & _ & Hmax & Hfirst).
  { apply (get_best_thread_inv threads b P Hbest).
    - unfold P. exists main. split; [done|]. split; [done|].
      split; intros j th Hj; lia.
    - unfold P.
      intros votes minScore i b' th r Hi (bt & Hb' & Hbwin & Hmax & Hfirst) Hstep.
      pose proof Hstep as (bt' & brm & rm & Hb'' & Hbrm & Hrm & _)%select_step_inv.
      rewrite Hb' in Hb''. injection Hb'' as <-.
      pose proof (first_score_lookup bt brm Hbrm) as Hbs.
      pose proof (first_score_lookup th rm Hrm) as Hs.
      pose proof (Hrange b' bt Hb') as Hbr.
      rewrite (select_step_mate threads votes minScore b' i bt th brm rm)
        in Hstep by (try done; rewrite int32_id by (unfold in_int32; lia); lia).
      injection Hstep as <-. case_decide.
      + exists th. split; [done|]. split; [lia|]. split.
        * intros j th' Hj Hth'. destruct (decide (j = i)) as [->|Hne].
          -- rewrite Hi in Hth'. injection Hth' as <-. lia.
          -- specialize (Hmax j th' ltac:(lia) Hth'). lia.
        * intros j th' Hj Hth'. specialize (Hmax j th' Hj Hth'). lia.
      + exists bt. split; [done|]. split; [done|]. split; [|done].
        intros j th' Hj Hth'. destruct (decide (j = i)) as [->|Hne].
        * rewrite Hi in Hth'. injection Hth' as <-. lia.
        * apply (Hmax j); [lia | done]. }
  exists bt. split; [done|]. split; [|done].
  intros th [j Hj]%list_elem_of_lookup.
  apply (Hmax j th); [by eapply lookup_lt_Some | done].
Qed.
End PoolMore.

(** ** The park/wake protocol over a thread's life *)

Section ParkMore.
Import Park ParkHistory.
Local Open Scope nat_scope.

Lemma park_invariant_step (a : Agent) (p p' : State) :
  step a p = Some p' →
  (searching (flags p) = false → worker p = Parked) →
  (worker p = Returned → exit (flags p) = true) →
  (searching (flags p') = false → worker p' = Parked)
  ∧ (worker p' = Returned → exit (flags p') = true).
Proof.
  unfold step. destruct (aborted p); [done|].
  destruct p as [[e s] w c ab]. simpl.
  destruct a; simpl.
  - unfold idle_loop_step. simpl.
    destruct w; simpl; try done.
    + by intros [= <-].
    + unfold wake_predicate. simpl. destruct s; [|done].
      intros [= <-] _ _. simpl. by destruct e.
    + intros [= <-] Hs _. simpl. split; [|done].
      intros Hf. by specialize (Hs Hf).
  - unfold client_step. simpl.
    destruct c as [|[] k]; simpl; try done.
    + unfold finished_predicate. simpl. destruct s; [done|].
      by intros [= <-].
    + intros [= <-] Hs He. simpl. split; [done|]. done.
    + destruct s; by intros [= <-].
    + intros [= <-] Hs He. simpl. done.
    + destruct w; try done. by intros [= <-].
Qed.

(** X15.  However its owner uses a thread after constructing it, and in
    every interleaving: whenever the flag [searching] reads false the
    thread is parked in its wait (it is not inside [search()]), and
    [idle_loop] has returned only if [exit] was requested. *)
Theorem idle_flag_means_parked (prog : list ClientOp) (sched : list Agent) :
  let p := run sched (spawned prog) in
  (searching (flags p) = false → worker p = Parked)
  ∧ (worker p = Returned → exit (flags p) = true).
Proof.
  assert (∀ sched p,
            (searching (flags p) = false → worker p = Parked) →
            (worker p = Returned → exit (flags p) = true) →
            (searching (flags (run sched p)) = false
             → worker (run sched p) = Parked)
            ∧ (worker (run sched p) = Returned
               → exit (flags (run sched p)) = true)) as Hrun.
  { clear. induction sched as [|a sched IH]; intros p H1 H2; simpl; [done|].
    destruct (step a p) as [p'|] eqn:Hstep; simpl; [|by apply IH].
    destruct (park_invariant_step a p p' Hstep H1 H2). by apply IH. }
  apply Hrun; done.
Qed.

Lemma rounds_step (k : nat) (a : Agent) (p : State) (n : nat) :
  RoundInv k p n →
  RoundInv k (default p (step a p)) (n + if enters_search a p then 1 else 0).
Proof.
  intros Hinv. destruct Hinv as [r n Hk|r n Hk|r n Hk Hn|r n Hk Hn|r n Hk Hn].
  - destruct a, r as [|r]; unfold enters_search; simpl; rewrite Nat.add_0_r.
    + by apply (AtRest k 0).
    + by apply (AtRest k (S r)).
    + by apply (AtRest k 0).
    + apply (Signalled k r). lia.
  - destruct a; unfold enters_search; simpl; rewrite ?Nat.add_0_r.
    + apply (Searching k r); lia.
    + by apply (Signalled k r).
  - destruct a; unfold enters_search; simpl; rewrite Nat.add_0_r.
    + by apply (Finishing k r).
    + by apply (Searching k r).
  - destruct a; unfold enters_search; simpl; rewrite Nat.add_0_r.
    + by apply (Reported k r).
    + by apply (Finishing k r).
  - destruct a; unfold enters_search; simpl; rewrite Nat.add_0_r.
    + by apply (Reported k r).
    + by apply (AtRest k r).
Qed.

Lemma rounds_run (k : nat) (sched : list Agent) (p : State) (n : nat) :
  RoundInv k p n → RoundInv k (run sched p) (n + searches sched p).
Proof.
  revert p n. induction sched as [|a sched IH]; intros p n Hinv; simpl.
  - by rewrite Nat.add_0_r.
  - rewrite Nat.add_assoc. apply IH. by apply rounds_step.
Qed.

(** X16.  [k] rounds of [start_searching(); wait_for_search_finished();]
    on a parked thread make the thread call [search()] exactly [k]
    times, in every interleaving: once the owner is through, the
    thread is parked again with [searching] cleared, and before that no
    state is stuck. *)
Theorem rounds_run_one_search_each (k : nat) (sched : list Agent) :
  let p := run sched (parked_idle (rounds k)) in
  (client p = [] →
     searches sched (parked_idle (rounds k)) = k
     ∧ worker p = Parked
     ∧ flags p = {| exit := false; searching := false |})
  ∧ (client p ≠ [] → ∃ a, is_Some (step a p))
  ∧ searches sched (parked_idle (rounds k)) ≤ k.
Proof.
  intros p.
  assert (RoundInv k p (0 + searches sched (parked_idle (rounds k)))) as Hinv.
  { apply rounds_run. constructor. lia. }
  simpl in Hinv. 
  set (n := searches sched (parked_idle (rounds k))) in *.
  clearbody p n.
  destruct Hinv as [r n Hk|r n Hk|r n Hk Hn|r n Hk Hn|r n Hk Hn]; simpl.
  - split; [|split; [|lia]].
    + destruct r; [|done]. intros _. split; [lia|done].
    + intros Hc. exists Client. destruct r; [done|]. by eexists.
  - split; [done|]. split; [|lia]. intros _. exists Worker. by eexists.
  - split; [done|]. split; [|lia]. intros _. exists Worker. by eexists.
  - split; [done|]. split; [|lia]. intros _. exists Worker. by eexists.
  - split; [done|]. split; [|lia]. intros _. exists Client. by eexists.
Qed.

(** X17.  Destroying a thread that is still searching, in a build where
    the assertion is compiled out, can hang: there is an interleaving
    after which the join never returns, whatever is scheduled next. *)
Theorem dtor_of_searching_thread_can_hang (w : WorkerPc) (later : list Agent) :
  w = InSearch ∨ w = AtLoopHead →
  let p := run [Client; Client; Worker; Worker]
             {| flags := {| exit := false; searching := true |};
                worker := w; client := Thread_dtor_body_ndebug;
                aborted := false |} in
  run later p = p
  ∧ client p = [CJoin] ∧ worker p = Parked ∧ aborted p = false.
Proof.
  intros Hw p.
  assert (p = {| flags := {| exit := true; searching := false |};
                 worker := Parked; client := [CJoin]; aborted := false |})
    as ->.
  { by destruct Hw as [-> | ->]. }
  split; [|done].
  induction later as [|a later IH]; [done|].
  simpl. by destruct a.
Qed.
End ParkMore.

(** ** Sessions and descriptors *)

Section OnceInitMore.
Import OnceInit OnceInitLater.
Local Open Scope nat_scope.

Lemma Inv_add_session (s : State) : Inv s → Inv (add_session s).
Proof.
  intros [Ha Hf Hb Hc Hd He]. split; simpl; try done.
  - intros j pc [Hj|[_ Hj]]%lookup_app_Some Hpc; [by eapply Ha|].
    destruct (j - length (sessions s)) as [|?]; simpl in Hj; [|done].
    by injection Hj as <-.
  - intros j Hj. destruct (Hf j Hj) as (pc & Hpc & Hin).
    exists pc. split; [|done]. by apply lookup_app_l_Some.
  - intros j pc [Hj|[_ Hj]]%lookup_app_Some Hpc; [by eapply Hc|].
    destruct (j - length (sessions s)) as [|?]; simpl in Hj; [|done].
    by injection Hj as <-.
  - intros j [Hj|[_ Hj]]%lookup_app_Some; [by eapply Hd|].
    by destruct (j - length (sessions s)) as [|?].
  - intros Hflag. destruct (He Hflag) as [?|[j Hj]]; [by left|].
    right. exists j. by apply lookup_app_l_Some.
Qed.

Lemma Inv_play (evs : list Event) (s : State) : Inv s → Inv (play evs s).
Proof.
  revert s. induction evs as [|[|i] evs IH]; intros s Hs; simpl; [done|..].
  - by apply IH, Inv_add_session.
  - apply IH. destruct (step i s) as [s'|] eqn:Hstep; simpl; [|done].
    by eapply Inv_step.
Qed.

(** X18.  Sessions may start at any time, also after others have ended:
    in every history [Bitboards::init] has run at most once, exactly
    once as soon as one session is past the test of the flag, and a
    session that finds the flag set does not run it again; no history
    is stuck while a session has not left the block. *)
Theorem late_sessions_do_not_init_again (evs : list Event) :
  let s := play evs (start 0) in
  init_calls s ≤ 1
  ∧ (∀ i pc, sessions s !! i = Some pc → past_check pc = true →
             init_calls s = 1)
  ∧ (bitboards_initialized s = true →
       ∀ later, init_calls (play later s) = init_calls s)
  ∧ (all_released s = false → ∃ i, is_Some (step i s)).
Proof.
  intros s.
  assert (Inv s) as Hinv by apply Inv_play, Inv_start.
  split; [by apply Inv_at_most_once|].
  split; [intros i pc; by apply Inv_past_check|].
  split; [|by apply Inv_progress].
  intros Hflag later.
  assert (∀ evs' s', Inv s' → bitboards_initialized s' = true →
            bitboards_initialized (play evs' s') = true) as Hkeep.
  { induction evs' as [|[|i] evs' IH]; intros s' Hs' Hf; simpl; [done|..].
    - apply IH; [by apply Inv_add_session | done].
    - destruct (step i s') as [s''|] eqn:Hstep; simpl; [|by apply IH].
      apply IH; [by eapply Inv_step|].
      revert Hstep. unfold step.
      destruct (sessions s' !! i) as [[]|]; try done;
        try (intros [= <-]; done).
      destruct (mtx s'); [done|]. by intros [= <-]. }
  pose proof (Inv_play later s Hinv) as Hinv'.
  rewrite (inv_flag _ Hinv' (Hkeep later s Hinv Hflag)).
  by rewrite (inv_flag _ Hinv Hflag).
Qed.

End OnceInitMore.

Section SessionMore.
Import Session.

(** X19.  With fresh descriptors, [pipe_wrapper] gives the descriptor
    table back as it found it when nothing fails; when the second
    [pipe] fails both ends of the first pipe stay open, and when
    [pthread_create] fails the two ends meant for the session thread
    stay open; a descriptor that was open at entry is never closed. *)
Theorem pipe_wrapper_descriptor_balance (env : Env) (fds : gset Z) :
  fresh_answers env fds →
  (pipe_wrapper env fds).2 = fds ∪ left_open env
  ∧ fds ⊆ (pipe_wrapper env fds).2.
Proof.
  unfold fresh_answers, left_open, pipe_wrapper, opened.
  destruct (pipe_fd_in env) as [[in0 in1]|]; [|intros _; set_solver].
  destruct (pipe_fd_out env) as [[out0 out1]|].
  - intros (Hz & Hfresh & Hdup).
    assert (in0 ≠ 0 ∧ in1 ≠ 0 ∧ out0 ≠ 0 ∧ out1 ≠ 0) as (H0 & H1 & H2 & H3)
      by set_solver.
    assert (in0 ≠ in1 ∧ in0 ≠ out0 ∧ in0 ≠ out1 ∧ in1 ≠ out0 ∧ in1 ≠ out1
            ∧ out0 ≠ out1) as (N1 & N2 & N3 & N4 & N5 & N6).
    { rewrite !NoDup_cons, !not_elem_of_cons in Hdup. naive_solver. }
    clear Hdup Hz.
    assert (in0 ∉ fds ∧ in1 ∉ fds ∧ out0 ∉ fds ∧ out1 ∉ fds)
      as (F0 & F1 & F2 & F3) by set_solver.
    clear Hfresh.
    unfold session_thread, filebuf2_open, filebuf2_close, filebuf2_is_open,
      filebuf2_new.
    apply Z.eqb_neq in H0, H1, H2, H3.
    cbn [fst snd Z.eqb negb]. rewrite ?H0, ?H1, ?H2, ?H3. cbn [fst snd negb].
    destruct (pthread_create_ok env); cbn [fst snd negb];
      rewrite ?H0, ?H1, ?H2, ?H3; cbn [fst snd Z.eqb].
    + (split; [apply set_eq; intros x|intros x];
        rewrite ?elem_of_difference, ?elem_of_union, ?elem_of_singleton;
        set_unfold; naive_solver).
    + (split; [apply set_eq; intros x|intros x];
        rewrite ?elem_of_difference, ?elem_of_union, ?elem_of_singleton;
        set_unfold; naive_solver).
  - intros (Hz & Hfresh & Hne). simpl. set_solver.
Qed.

(** X20.  The status of [pipe_wrapper] is 0 exactly when both pipes and
    the thread were created and neither stream was handed descriptor 0,
    which [basic_filebuf2] takes for "not open"; otherwise it is 1.  A
    failed [pthread_join] changes neither the status nor the
    descriptors. *)
Theorem pipe_wrapper_status_cases (env : Env) (fds : gset Z) :
  ((pipe_wrapper env fds).1 = 0 ∨ (pipe_wrapper env fds).1 = 1)
  ∧ ((pipe_wrapper env fds).1 = 0 ↔
       ∃ in0 in1 out0 out1,
         pipe_fd_in env = Some (in0, in1)
         ∧ pipe_fd_out env = Some (out0, out1)
         ∧ pthread_create_ok env = true ∧ in1 ≠ 0 ∧ out0 ≠ 0)
  ∧ ∀ join,
      pipe_wrapper {| pipe_fd_in := pipe_fd_in env;
                      pipe_fd_out := pipe_fd_out env;
                      pthread_create_ok := pthread_create_ok env;
                      pthread_join_ok := join |} fds
      = pipe_wrapper env fds.
Proof.
  split; [|split]; [| |done].
  - unfold pipe_wrapper.
    destruct (pipe_fd_in env) as [[in0 in1]|]; [|by right].
    destruct (pipe_fd_out env) as [[out0 out1]|]; [|by right].
    unfold filebuf2_open, filebuf2_close, filebuf2_is_open, filebuf2_new.
    cbn [fst snd].
    destruct (in1 =? 0) eqn:H1; cbn [negb fst snd];
      rewrite ?H1; cbn [negb fst snd];
      (destruct (out0 =? 0) eqn:H2; cbn [negb fst snd]; rewrite ?H1, ?H2;
       cbn [negb fst snd]; [by right|]); try by right.
    destruct (pthread_create_ok env); cbn [negb fst snd];
      rewrite ?H1, ?H2; cbn [negb fst snd Z.eqb]; first [by left | by right].
  - unfold pipe_wrapper.
    destruct (pipe_fd_in env) as [[in0 in1]|];
      [|split; [done|by intros (? & ? & ? & ? & ? & _)]].
    destruct (pipe_fd_out env) as [[out0 out1]|];
      [|split; [done|by intros (? & ? & ? & ? & _ & ? & _)]].
    unfold filebuf2_open, filebuf2_close, filebuf2_is_open, filebuf2_new.
    cbn [fst snd].
    destruct (in1 =? 0) eqn:H1; cbn [negb fst snd]; rewrite ?H1;
      cbn [negb fst snd].
    { apply Z.eqb_eq in H1.
      destruct (out0 =? 0) eqn:H2; cbn [negb fst snd];
        (split; [done|]); intros (? & ? & ? & ? & ? & ? & ? & ? & ?);
        simplify_eq. }
    apply Z.eqb_neq in H1.
    destruct (out0 =? 0) eqn:H2; cbn [negb fst snd]; rewrite ?H2;
      cbn [negb fst snd].
    { apply Z.eqb_eq in H2.
      split; [done|]. intros (? & ? & ? & ? & ? & ? & ? & ? & ?).
      simplify_eq. }
    apply Z.eqb_neq in H2.
    destruct (pthread_create_ok env) eqn:Hc; cbn [negb fst snd].
    + apply Z.eqb_neq in H1 as H1', H2 as H2'.
      rewrite ?H1', ?H2'. cbn [negb fst snd Z.eqb].
      split; [|done]. intros _. by exists in0, in1, out0, out1.
    + apply Z.eqb_neq in H1 as H1', H2 as H2'.
      rewrite ?H1', ?H2'. cbn [negb fst snd Z.eqb].
      split; [done|]. intros (? & ? & ? & ? & ? & ? & ? & ? & ?). done.
Qed.
End SessionMore.

(** ** UCI options *)

Section UCIProperties.
Import UCI.
Context `{Platform}.

Lemma lex_map {A} (f : A → Z) (l1 l2 : list A) :
  lexicographical_compare (λ x y, f x <? f y) l1 l2
  = lexicographical_compare Z.ltb (map f l1) (map f l2).
Proof.
  revert l2. induction l1 as [|x l1 IH]; intros [|y l2]; simpl; try done.
  by rewrite IH.
Qed.

Lemma less_lowered (a b : string) :
  CaseInsensitiveLess a b
  = lexicographical_compare Z.ltb (lowered a) (lowered b).
Proof. apply lex_map. Qed.

Lemma lex_irrefl (l : list Z) : lexicographical_compare Z.ltb l l = false.
Proof. induction l as [|x l IH]; simpl; [done|]. by rewrite Z.ltb_irrefl. Qed.

Lemma lex_trans (a b c : list Z) :
  lexicographical_compare Z.ltb a b = true →
  lexicographical_compare Z.ltb b c = true →
  lexicographical_compare Z.ltb a c = true.
Proof.
  revert b c. induction a as [|x a IH]; intros [|y b] [|z c]; simpl;
    try done.
  destruct (Z.ltb_spec x y), (Z.ltb_spec y x), (Z.ltb_spec y z),
    (Z.ltb_spec z y), (Z.ltb_spec x z), (Z.ltb_spec z x);
    try done; try lia.
  apply IH.
Qed.

Lemma lex_equiv (a b : list Z) :
  lexicographical_compare Z.ltb a b = false
  ∧ lexicographical_compare Z.ltb b a = false ↔ a = b.
Proof.
  split; [|intros ->; by rewrite lex_irrefl].
  revert b. induction a as [|x a IH]; intros [|y b]; simpl;
    try (by intros [??]).
  destruct (Z.ltb_spec x y), (Z.ltb_spec y x); try (by intros [??]);
    try lia.
  intros Hab. assert (x = y) as -> by lia. f_equal. by apply IH.
Qed.

Lemma equivalent_lowered (a b : string) :
  equivalent a b = true ↔ lowered a = lowered b.
Proof.
  unfold equivalent. rewrite !less_lowered, andb_true_iff, !negb_true_iff.
  apply lex_equiv.
Qed.

Lemma equivalent_false (a b : string) :
  equivalent a b = false ↔ lowered a ≠ lowered b.
Proof.
  rewrite <- equivalent_lowered. by destruct (equivalent a b).
Qed.

Lemma less_not_equivalent (a b : string) :
  CaseInsensitiveLess a b = true → equivalent a b = false.
Proof. unfold equivalent. by intros ->. Qed.

Lemma less_not_equivalent_r (a b : string) :
  CaseInsensitiveLess a b = true → equivalent b a = false.
Proof. unfold equivalent. intros ->. by rewrite andb_false_r. Qed.

Lemma less_trans (a b c : string) :
  CaseInsensitiveLess a b = true → CaseInsensitiveLess b c = true →
  CaseInsensitiveLess a c = true.
Proof. rewrite !less_lowered. apply lex_trans. Qed.

(** X21.  [CaseInsensitiveLess] is a strict weak ordering, as [std::map]
    requires of its comparison: it is irreflexive and transitive, two
    names are equivalent for it exactly when they are equal once their
    letters are lowered, and a name is less than another exactly when
    every name equivalent to it is. *)
Theorem CaseInsensitiveLess_strict_weak_order :
  (∀ a, CaseInsensitiveLess a a = false)
  ∧ (∀ a b c, CaseInsensitiveLess a b = true →
              CaseInsensitiveLess b c = true →
              CaseInsensitiveLess a c = true)
  ∧ (∀ a b, equivalent a b = true ↔ lowered a = lowered b)
  ∧ (∀ a a' b b', equivalent a a' = true → equivalent b b' = true →
                  CaseInsensitiveLess a b = CaseInsensitiveLess a' b').
Proof.
  split; [|split; [|split]].
  - intros a. rewrite less_lowered. apply lex_irrefl.
  - apply less_trans.
  - apply equivalent_lowered.
  - intros a a' b b' Ha Hb. apply equivalent_lowered in Ha, Hb.
    by rewrite !less_lowered, Ha, Hb.
Qed.

Lemma equivalent_refl (a : string) : equivalent a a = true.
Proof. by apply equivalent_lowered. Qed.

Lemma find_none_above (k : string) (om : OptionsMap) :
  Forall (λ e, CaseInsensitiveLess k e.1 = true) om →
  OptionsMap_find k om = None.
Proof.
  unfold OptionsMap_find.
  induction 1 as [|e om He _ IH]; simpl; [done|].
  by rewrite (less_not_equivalent _ _ He).
Qed.

Lemma subscript_keys (k : string) (f : Option → Option) (om : OptionsMap)
    (e : string * Option) :
  e ∈ subscript k f om → e.1 = k ∨ ∃ e', e' ∈ om ∧ e.1 = e'.1.
Proof.
  induction om as [|[k' o'] om IH]; simpl.
  - intros He. apply elem_of_cons in He as [->|He]; [by left|]. by apply elem_of_nil in He.
  - destruct (CaseInsensitiveLess k k').
    { intros [->|?]%elem_of_cons; [by left|]. right. by exists e. }
    destruct (CaseInsensitiveLess k' k).
    + intros [->|He]%elem_of_cons.
      * right. exists (k', o'). split; [left|done].
      * destruct (IH He) as [?|(e' & ? & ?)]; [by left|].
        right. exists e'. split; [by right|done].
    + intros [->|He]%elem_of_cons.
      * right. exists (k', o'). split; [left|done].
      * right. exists e. split; [by right|done].
Qed.

Lemma subscript_ordered (k : string) (f : Option → Option)
    (om : OptionsMap) :
  ordered om → ordered (subscript k f om).
Proof.
  unfold ordered.
  induction 1 as [|[k' o'] om Hs IH Hall]; simpl.
  - repeat constructor.
  - destruct (CaseInsensitiveLess k k') eqn:Hlt.
    { constructor; [by constructor|]. constructor; [done|].
      eapply Forall_impl; [exact Hall|]. simpl. intros e He.
      by eapply less_trans. }
    destruct (CaseInsensitiveLess k' k) eqn:Hgt.
    + constructor; [done|]. apply Forall_forall. intros e He.
      apply subscript_keys in He as [->|(e' & He' & ->)]; [done|].
      rewrite Forall_forall in Hall. by apply Hall.
    + by constructor.
Qed.

Lemma subscript_find_same (k : string) (f : Option → Option)
    (om : OptionsMap) :
  ordered om →
  OptionsMap_find k (subscript k f om)
  = Some (match OptionsMap_find k om with
          | Some (k0, o) => (k0, f o)
          | None => (k, f Option_default)
          end).
Proof.
  unfold ordered.
  induction 1 as [|[k' o'] om Hs IH Hall]; cbn [subscript].
  - unfold OptionsMap_find. simpl. by rewrite equivalent_refl.
  - destruct (CaseInsensitiveLess k k') eqn:Hlt.
    { rewrite (find_none_above k ((k', o') :: om)).
      - unfold OptionsMap_find. simpl. by rewrite equivalent_refl.
      - constructor; [done|]. eapply Forall_impl; [exact Hall|].
        simpl. intros e He. by eapply less_trans. }
    destruct (CaseInsensitiveLess k' k) eqn:Hgt.
    + unfold OptionsMap_find in *. simpl.
      by rewrite (less_not_equivalent_r _ _ Hgt).
    + unfold OptionsMap_find. simpl.
      assert (equivalent k k' = true) as ->; [|done].
      unfold equivalent. by rewrite Hlt, Hgt.
Qed.

Lemma subscript_find_other (k k' : string) (f : Option → Option)
    (om : OptionsMap) :
  lowered k' ≠ lowered k →
  OptionsMap_find k' (subscript k f om) = OptionsMap_find k' om.
Proof.
  intros Hne. unfold OptionsMap_find.
  induction om as [|[k0 o0] om IH]; simpl.
  - by rewrite (proj2 (equivalent_false k' k)).
  - destruct (CaseInsensitiveLess k k0) eqn:Hlt.
    { simpl. by rewrite (proj2 (equivalent_false k' k)). }
    destruct (CaseInsensitiveLess k0 k) eqn:Hgt; simpl.
    + by rewrite IH.
    + assert (lowered k = lowered k0) as Hk.
      { apply equivalent_lowered. unfold equivalent. by rewrite Hlt, Hgt. }
      rewrite (proj2 (equivalent_false k' k0)); [done|]. by rewrite <- Hk.
Qed.

Lemma subscript_length (k : string) (f : Option → Option)
    (om : OptionsMap) :
  ordered om →
  length (subscript k f om)
  = (length om + if OptionsMap_find k om then 0 else 1)%nat.
Proof.
  unfold ordered.
  induction 1 as [|[k' o'] om Hs IH Hall]; cbn [subscript]; [done|].
  destruct (CaseInsensitiveLess k k') eqn:Hlt.
  { rewrite (find_none_above k ((k', o') :: om)); [simpl; lia|].
    constructor; [done|]. eapply Forall_impl; [exact Hall|].
    simpl. intros e He. by eapply less_trans. }
  destruct (CaseInsensitiveLess k' k) eqn:Hgt.
  - unfold OptionsMap_find in *. simpl.
    rewrite (less_not_equivalent_r _ _ Hgt). rewrite IH. lia.
  - unfold OptionsMap_find. simpl.
    assert (equivalent k k' = true) as ->; [|lia].
    unfold equivalent. by rewrite Hlt, Hgt.
Qed.

(** X22.  [om[k]] on a map in key order, followed by a change [f] of the
    option referred to.  The map stays in key order; looking [k] up
    afterwards finds the changed option, under the spelling the map
    already had for the name if it had one; an entry is added only when
    no equivalent name was present, and it starts from [Option()];
    names that are not equivalent to [k] are found as before. *)
Theorem subscript_then_find (k : string) (f : Option → Option)
    (om : OptionsMap) :
  ordered om →
  ordered (subscript k f om)
  ∧ OptionsMap_find k (subscript k f om)
    = Some (match OptionsMap_find k om with
            | Some (k0, o) => (k0, f o)
            | None => (k, f Option_default)
            end)
  ∧ OptionsMap_count k (subscript k f om) = 1
  ∧ length (subscript k f om)
    = (length om + Z.to_nat (1 - OptionsMap_count k om))%nat
  ∧ ∀ k', lowered k' ≠ lowered k →
          OptionsMap_find k' (subscript k f om) = OptionsMap_find k' om.
Proof.
  intros Hord. split; [by apply subscript_ordered|].
  split; [by apply subscript_find_same|].
  split; [unfold OptionsMap_count; by rewrite subscript_find_same|].
  split.
  - rewrite subscript_length by done. unfold OptionsMap_count.
    by destruct (OptionsMap_find k om).
  - intros k'. apply subscript_find_other.
Qed.

(** *** The listing *)

Lemma size_t_small (z : Z) :
  0 ≤ z < 2 ^ Z.pos size_t_width → size_t z = z.
Proof. intros Hz. unfold size_t. by apply Z.mod_small. Qed.

Lemma size_t_add (z n : Z) : size_t (size_t z + n) = size_t (z + n).
Proof. unfold size_t. by rewrite Zplus_mod_idemp_l. Qed.

Lemma shl_all_counter (items : list (string * Option))
    (st : OptionsMap * Z) :
  (shl_all items st).2
  = match items with
    | [] => st.2
    | _ => size_t (st.2 + Z.of_nat (length items))
    end.
Proof.
  unfold shl_all. revert st.
  induction items as [|e items IH]; intros [om c]; [done|].
  cbn [foldl]. rewrite IH. cbn [shl fst snd].
  destruct items as [|e' items]; [done|].
  rewrite size_t_add. f_equal. cbn [length]. lia.
Qed.

Lemma subscript_perm (k : string) (f : Option → Option) (om : OptionsMap) :
  OptionsMap_find k om = None →
  subscript k f om ≡ₚ (k, f Option_default) :: om.
Proof.
  unfold OptionsMap_find.
  induction om as [|[k' o'] om IH]; cbn [subscript find fst]; [done|].
  destruct (equivalent k k') eqn:Heq; [done|]. intros Hnone.
  destruct (CaseInsensitiveLess k k') eqn:Hlt; [done|].
  destruct (CaseInsensitiveLess k' k) eqn:Hgt.
  - rewrite IH by done. apply Permutation_swap.
  - unfold equivalent in Heq. by rewrite Hlt, Hgt in Heq.
Qed.

Lemma find_none_keys (k : string) (om : OptionsMap) :
  OptionsMap_find k om = None ↔ ∀ e, e ∈ om → lowered e.1 ≠ lowered k.
Proof.
  unfold OptionsMap_find. split.
  - intros Hnone e He%list_elem_of_In Heq.
    pose proof (find_none _ _ Hnone e He) as Hf. simpl in Hf.
    apply equivalent_false in Hf. by apply Hf.
  - intros Hall. destruct (find _ om) as [e|] eqn:Hf; [|done].
    apply find_some in Hf as [He%list_elem_of_In Heq].
    apply equivalent_lowered in Heq. by destruct (Hall e He).
Qed.

Lemma stamped_keys (c : Z) (items : list (string * Option)) :
  (stamped c items).*1 = items.*1.
Proof.
  revert c. induction items as [|e items IH]; intros c; simpl; [done|].
  by rewrite IH.
Qed.

Lemma stamped_length (c : Z) (items : list (string * Option)) :
  length (stamped c items) = length items.
Proof.
  revert c. induction items as [|e items IH]; intros c; simpl; [done|].
  by rewrite IH.
Qed.

Lemma shl_all_perm (items : list (string * Option)) (om : OptionsMap)
    (c : Z) :
  NoDup (lowered <$> items.*1) →
  (∀ e e', e ∈ om → e' ∈ items → lowered e.1 ≠ lowered e'.1) →
  0 ≤ c → c + Z.of_nat (length items) ≤ 2 ^ Z.pos size_t_width →
  (shl_all items (om, c)).1 ≡ₚ om ++ stamped c items.
Proof.
  unfold shl_all. revert om c.
  induction items as [|[k o] items IH]; intros om c Hdup Hnew Hc Hfit.
  { simpl. by rewrite app_nil_r. }
  cbn [foldl fst snd].
  change (shl k o (om, c))
    with (subscript k (Option_shl o c) om, size_t (c + 1)).
  cbn [fmap list_fmap fst] in Hdup.
  apply NoDup_cons in Hdup as [Hk Hdup].
  assert (subscript k (Option_shl o c) om
          ≡ₚ (k, Option_shl o c Option_default) :: om) as Hperm.
  { apply subscript_perm, find_none_keys. intros e He.
    apply (Hnew e (k, o) He). left. }
  destruct items as [|e' items].
  { cbn [foldl stamped]. rewrite Hperm.
    by rewrite <- Permutation_cons_append. }
  rewrite size_t_small by (cbn [length] in Hfit; lia).
  rewrite IH; [| done | | lia | cbn [length] in *; lia].
  - rewrite Hperm. cbn [stamped fst snd].
    apply (Permutation_middle om).
  - intros e e'' He He''. rewrite Hperm in He.
    apply elem_of_cons in He as [->|He].
    + cbn [fst]. intros Heq. apply Hk. rewrite Heq.
      apply list_elem_of_fmap. exists e''.1. split; [done|].
      apply list_elem_of_fmap. by exists e''.
    + apply Hnew; [done|by right].
Qed.

Lemma find_idx_find (i : Z) (om : OptionsMap) :
  Forall (λ e, is_Some (idx e.2)) om →
  find_idx i om = Done (find (λ e, bool_decide (idx e.2 = Some i)) om).
Proof.
  induction 1 as [|[k o] om [j Hj] _ IH]; [done|].
  cbn [find_idx find snd]. simpl in Hj. rewrite Hj.
  destruct (Z.eqb_spec j i) as [->|Hne].
  - by rewrite bool_decide_eq_true_2.
  - rewrite bool_decide_eq_false_2 by congruence. done.
Qed.

Lemma find_unique_perm {A} (p : A → bool) (l l' : list A) :
  (∀ x y, x ∈ l → y ∈ l → p x = true → p y = true → x = y) →
  l ≡ₚ l' → find p l = find p l'.
Proof.
  intros Huniq Hperm.
  destruct (find p l) as [x|] eqn:Hx.
  - apply find_some in Hx as [Hin%list_elem_of_In Hpx].
    destruct (find p l') as [y|] eqn:Hy.
    + apply find_some in Hy as [Hin'%list_elem_of_In Hpy].
      rewrite <- Hperm in Hin'. f_equal. by apply Huniq.
    + rewrite Hperm in Hin. apply list_elem_of_In in Hin.
      pose proof (find_none _ _ Hy x Hin). congruence.
  - destruct (find p l') as [y|] eqn:Hy; [|done].
    apply find_some in Hy as [Hin'%list_elem_of_In Hpy].
    rewrite <- Hperm in Hin'. apply list_elem_of_In in Hin'.
    pose proof (find_none _ _ Hx y Hin'). congruence.
Qed.

Lemma stamped_lookup (c : Z) (items : list (string * Option)) (j : nat)
    (e : string * Option) :
  stamped c items !! j = Some e → idx e.2 = Some (c + Z.of_nat j).
Proof.
  revert c j. induction items as [|e0 items IH]; intros c j; [done|].
  destruct j as [|j]; cbn [stamped lookup list_lookup].
  - intros [= <-]. cbn. f_equal. lia.
  - intros Hj. rewrite (IH _ _ Hj). f_equal. lia.
Qed.

Lemma stamped_find (c i : Z) (items : list (string * Option)) :
  find (λ e, bool_decide (idx e.2 = Some i)) (stamped c items)
  = if c <=? i then stamped c items !! Z.to_nat (i - c) else None.
Proof.
  revert c. induction items as [|e0 items IH]; intros c.
  { cbn. by destruct (c <=? i). }
  cbn [stamped find snd Option_shl idx].
  destruct (Z.eq_dec c i) as [->|Hne].
  - rewrite bool_decide_eq_true_2 by done.
    rewrite Z.leb_refl, Z.sub_diag. done.
  - rewrite bool_decide_eq_false_2 by congruence. rewrite IH.
    destruct (Z.leb_spec (c + 1) i), (Z.leb_spec c i); try lia; [|done].
    replace (Z.to_nat (i - c)) with (S (Z.to_nat (i - (c + 1)))) by lia.
    done.
Qed.

Lemma print_loop_stamped (n : nat) (i c : Z) (om : OptionsMap)
    (items : list (string * Option)) :
  om ≡ₚ stamped c items → 0 ≤ i →
  print_loop n i om
  = Done (take (Z.to_nat (i + Z.of_nat n - c) - Z.to_nat (i - c))
               (drop (Z.to_nat (i - c)) (stamped c items))).
Proof.
  intros Hperm. revert i. induction n as [|n IH]; intros i Hi.
  { cbn [print_loop]. rewrite Z.add_0_r, Nat.sub_diag. done. }
  cbn [print_loop].
  assert (Forall (λ e, is_Some (idx e.2)) om) as Hall.
  { apply Forall_forall. intros e He. rewrite Hperm in He.
    apply list_elem_of_lookup in He as [j Hj].
    rewrite (stamped_lookup _ _ _ _ Hj). by eexists. }
  rewrite find_idx_find by done. cbn [obind].
  rewrite (find_unique_perm _ om (stamped c items)); [|intros x y|done].
  2:{ rewrite !Hperm. intros [jx Hx]%list_elem_of_lookup
        [jy Hy]%list_elem_of_lookup Hpx%bool_decide_eq_true
        Hpy%bool_decide_eq_true.
      rewrite (stamped_lookup _ _ _ _ Hx) in Hpx.
      rewrite (stamped_lookup _ _ _ _ Hy) in Hpy.
      assert (jx = jy) as -> by (simplify_eq; lia). congruence. }
  rewrite stamped_find, IH by lia. cbn [obind]. f_equal.
  destruct (Z.leb_spec c i) as [Hle|Hlt].
  - replace (Z.to_nat (i + 1 - c)) with (S (Z.to_nat (i - c))) by lia.
    replace (Z.to_nat (i + Z.of_nat (S n) - c) - Z.to_nat (i - c))%nat
      with (S (Z.to_nat (i + 1 + Z.of_nat n - c) - S (Z.to_nat (i - c))))
      by lia.
    destruct (stamped c items !! Z.to_nat (i - c)) as [x|] eqn:Hx.
    + by rewrite (drop_S _ _ _ Hx).
    + apply lookup_ge_None in Hx.
      rewrite !drop_ge by lia. by rewrite !take_nil.
  - replace (Z.to_nat (i + 1 - c)) with 0%nat by lia.
    replace (Z.to_nat (i - c)) with 0%nat by lia.
    f_equal. lia.
Qed.

Lemma shl_all_ordered (items : list (string * Option))
    (st : OptionsMap * Z) :
  ordered st.1 → ordered (shl_all items st).1.
Proof.
  unfold shl_all. revert st.
  induction items as [|e items IH]; intros st Hord; [done|].
  cbn [foldl]. apply IH. by apply subscript_ordered.
Qed.

Lemma print_shl_all (items : list (string * Option)) (c : Z) :
  NoDup (lowered <$> items.*1) →
  0 ≤ c < 2 ^ Z.pos size_t_width →
  c + Z.of_nat (length items) ≤ 2 ^ Z.pos size_t_width →
  print (shl_all items ([], c)).1
  = Done (take (Z.to_nat (Z.of_nat (length items) - c)) (stamped c items)).
Proof.
  intros Hdup Hc Hfit.
  assert ((shl_all items ([], c)).1 ≡ₚ stamped c items) as Hperm.
  { rewrite shl_all_perm; [done|done| |lia|done].
    intros e e' He. by apply elem_of_nil in He. }
  unfold print. rewrite (print_loop_stamped _ 0 c _ items) by done.
  rewrite Hperm, stamped_length.
  replace (Z.to_nat (0 - c)) with 0%nat by lia.
  rewrite Nat.sub_0_r. done.
Qed.

(** X23.  A run of [o[name] << option] statements on an empty map, with
    names that differ beyond letter case, when the process-wide counter
    stands at [c] and does not wrap.  The listing then shows the first
    [n - c] of the [n] options, in the order of the statements: all of
    them when the counter was 0, none when it had already reached [n].
    The counter is left at [c + n]. *)
Theorem listing_follows_the_counter (items : list (string * Option))
    (c : Z) :
  NoDup (lowered <$> items.*1) →
  0 ≤ c < 2 ^ Z.pos size_t_width →
  c + Z.of_nat (length items) ≤ 2 ^ Z.pos size_t_width →
  print (shl_all items ([], c)).1
  = Done (take (Z.to_nat (Z.of_nat (length items) - c)) (stamped c items))
  ∧ ordered (shl_all items ([], c)).1
  ∧ (shl_all items ([], c)).2 = size_t (c + Z.of_nat (length items)).
Proof.
  intros Hdup Hc Hfit.
  split; [by apply print_shl_all|].
  split; [apply shl_all_ordered; constructor|].
  rewrite shl_all_counter. cbn [snd].
  destruct items as [|e items]; [|done].
  cbn [length]. by rewrite Z.add_0_r, size_t_small.
Qed.

Lemma init_names_distinct : NoDup (lowered <$> init_items.*1).
Proof.
  change (init_items.*1) with
    ["Debug Log File"; "Threads"; "Hash"; "Clear Hash"; "Ponder"; "MultiPV";
     "Skill Level"; "Move Overhead"; "Slow Mover"; "nodestime";
     "UCI_Chess960"; "UCI_AnalyseMode"; "UCI_LimitStrength"; "UCI_Elo";
     "UCI_ShowWDL"; "SyzygyPath"; "SyzygyProbeDepth"; "Syzygy50MoveRule";
     "SyzygyProbeLimit"; "EvalFile"]%string.
  unfold lowered, char_to_int.
  cbn [fmap list_fmap map list_ascii_of_string].
  destruct char_is_signed;
    apply (bool_decide_unpack _); vm_compute; exact I.
Qed.

(** X24.  [UCI::init] on the empty map of a session, when the process-wide
    counter stands at [c].  The listing of the session shows the first
    [20 - c] of the twenty options, in the order of the statements of
    [init]: the whole list for the first session of a process (the
    counter is 0), and nothing for a session whose [init] runs after
    another session's (the counter is 20 or more).  [init] leaves the
    counter at [c + 20]. *)
Theorem init_listing (c : Z) :
  0 ≤ c < 2 ^ Z.pos size_t_width →
  c + 20 ≤ 2 ^ Z.pos size_t_width →
  ∃ listed,
    print (init ([], c)).1 = Done listed
    ∧ listed.*1 = take (Z.to_nat (20 - c)) init_items.*1
    ∧ (c = 0 → length listed = 20%nat)
    ∧ (20 ≤ c → listed = [])
    ∧ (init ([], c)).2 = size_t (c + 20).
Proof.
  intros Hc Hfit.
  exists (take (Z.to_nat (20 - c)) (stamped c init_items)).
  split; [exact (print_shl_all init_items c init_names_distinct Hc Hfit)|].
  split; [|split; [|split]].
  - by rewrite fmap_take, stamped_keys.
  - intros ->. by rewrite length_take, stamped_length.
  - intros Hge. by replace (Z.to_nat (20 - c)) with 0%nat by lia.
  - unfold init. by rewrite shl_all_counter.
Qed.

(** *** Option::operator= *)

Lemma find_lowered (a b : string) (om : OptionsMap) :
  lowered a = lowered b → OptionsMap_find a om = OptionsMap_find b om.
Proof.
  intros Hab. unfold OptionsMap_find.
  induction om as [|e om IH]; [done|]. cbn [find].
  assert (equivalent a e.1 = equivalent b e.1) as ->; [|by rewrite IH].
  unfold equivalent. by rewrite !less_lowered, Hab.
Qed.

Lemma shl_all_find (v : string) (items : list (string * Option))
    (st : OptionsMap * Z) :
  ordered st.1 →
  is_Some (OptionsMap_find v (shl_all items st).1)
  ↔ is_Some (OptionsMap_find v st.1)
    ∨ ∃ e, e ∈ items ∧ lowered e.1 = lowered v.
Proof.
  unfold shl_all. revert st.
  induction items as [|e items IH]; intros st Hord.
  { cbn [foldl]. split; [by left|]. intros [?|(e & He & _)]; [done|].
    by apply elem_of_nil in He. }
  cbn [foldl]. rewrite IH by by apply subscript_ordered.
  cbn [shl fst].
  destruct (decide (lowered v = lowered e.1)) as [Heq|Hne].
  - rewrite (find_lowered v e.1 (subscript _ _ _)) by done.
    rewrite subscript_find_same by done.
    split; [|intros _; by left].
    intros _. right. exists e. split; [left|done].
  - rewrite subscript_find_other by done.
    split.
    + intros [?|(e' & He' & Heq)]; [by left|].
      right. exists e'. split; [by right|done].
    + intros [?|(e' & He' & Heq)]; [by left|].
      apply elem_of_cons in He' as [->|He']; [congruence|].
      right. by exists e'.
Qed.

Lemma combo_count (v : string) (toks : list string) (c : Z) :
  0 <? OptionsMap_count v
         (shl_all ((λ token, (token, Option_default)) <$> toks) ([], c)).1
  = bool_decide (Exists (λ t, lowered t = lowered v) toks).
Proof.
  unfold OptionsMap_count.
  pose proof (shl_all_find v ((λ token, (token, Option_default)) <$> toks)
                ([], c)) as Hfind.
  cbn [fst] in Hfind. specialize (Hfind ltac:(constructor)).
  destruct (OptionsMap_find v (shl_all _ _).1) as [e|].
  - symmetry. apply bool_decide_eq_true_2, Exists_exists.
    destruct (proj1 Hfind) as [[? [=]]|(e' & He' & Heq)]; [by eexists|].
    apply list_elem_of_fmap in He' as (t & -> & Ht). by exists t.
  - symmetry. apply bool_decide_eq_false_2.
    intros (t & Ht & Heq)%Exists_exists.
    destruct (proj2 Hfind) as [? [=]]. right.
    exists (t, Option_default). split; [|done].
    apply list_elem_of_fmap. by exists t.
Qed.

Lemma combo_counter (toks : list string) (c : Z) :
  0 ≤ c < 2 ^ Z.pos size_t_width →
  (shl_all ((λ token, (token, Option_default)) <$> toks) ([], c)).2
  = size_t (c + Z.of_nat (length toks)).
Proof.
  intros Hc. rewrite shl_all_counter. cbn [snd].
  destruct toks as [|t toks]; cbn [fmap list_fmap length].
  - by rewrite Z.add_0_r, size_t_small.
  - by rewrite length_fmap.
Qed.


(** X25.  How [Option::operator=] ends, for an option with a type.  It
    throws only for a spin option given a non-empty text that
    [std::stof] cannot read.  When it returns, either nothing has
    changed and no action has run, or the action of the option has run
    and the value has become the given text (a button keeps its value
    and always runs its action, also for the empty text); nothing but
    [currentValue] is ever changed. *)
Theorem assign_changes_value_or_nothing (v : string) (o : Option) (c : Z) :
  type o ≠ ""%string →
  match Option_assign v o c with
  | AssertFails => False
  | Thrown => type o = "spin"%string ∧ v ≠ ""%string ∧ stof v = None
  | Returned o' c' ran =>
      (o' = o ∧ ran = None ∧ type o ≠ "button"%string)
      ∨ (o' = with_currentValue v o ∧ ran = on_change o
         ∧ type o ≠ "button"%string
         ∧ (v = ""%string → type o = "string"%string))
      ∨ (o' = o ∧ ran = on_change o ∧ type o = "button"%string)
  end.
Proof.
  intros Hty. unfold Option_assign.
  destruct (String.eqb_spec v "") as [Hv|Hv];
    destruct (String.eqb_spec v "true") as [Hvt|Hvt];
    destruct (String.eqb_spec v "false") as [Hvf|Hvf];
    try congruence;
    type_cases o; cbn [negb andb orb];
    try (left; done);
    try (right; right; done);
    try (right; left; done).
  all: try (destruct (stof v) as [x|]; [|done];
            destruct (float_lt x _ || float_lt _ x); [by left|];
            cbn [negb]; right; left; done).
  all: try (destruct (shl_all _ _) as [comboMap c'];
            destruct (negb (0 <? OptionsMap_count v comboMap) || _);
            [by left|right; left; done]).
Qed.

(** X26.  [Option::operator=] moves the process-wide counter of
    [Option::operator<<] for combo options only: setting a combo
    option to a non-empty text advances the counter by the number of
    words of its default value, whether or not the text is accepted;
    in every other case that returns the counter is untouched. *)
Theorem assign_moves_counter_for_combo_only (v : string) (o o' : Option)
    (c c' : Z) (ran : option OnChange) :
  0 ≤ c < 2 ^ Z.pos size_t_width →
  Option_assign v o c = Returned o' c' ran →
  c' = if String.eqb (type o) "combo" && negb (String.eqb v "")
       then size_t (c + Z.of_nat (length (tokens (defaultValue o))))
       else c.
Proof.
  intros Hc. unfold Option_assign.
  destruct (String.eqb_spec v "") as [Hv|Hv];
    destruct (String.eqb_spec v "true") as [Hvt|Hvt];
    destruct (String.eqb_spec v "false") as [Hvf|Hvf];
    try congruence;
    type_cases o; cbn [negb andb orb];
    try (intros [= _ <- _]; done);
    try done.
  all: try (destruct (stof v) as [x|]; [|done];
            destruct (float_lt x _ || float_lt _ x); cbn [negb];
            intros [= _ <- _]; done).
  all: pose proof (combo_counter (tokens (defaultValue o)) c Hc) as Hcount;
    destruct (shl_all _ _) as [comboMap c1]; cbn [snd] in Hcount;
    destruct (negb (0 <? OptionsMap_count v comboMap) || _);
    intros [= _ <- _]; done.
Qed.

(** X27.  [Option::operator=] keeps the value of an option fit for its
    type: a check option holds "true" or "false", a spin option a text
    that [std::stof] reads as a number not below [min] and not above
    [max], a combo option a text other than "var" that is, letter case
    apart, a word of the default value. *)
Theorem assign_keeps_fit (v : string) (o o' : Option) (c c' : Z)
    (ran : option OnChange) :
  fits o →
  Option_assign v o c = Returned o' c' ran →
  fits o'.
Proof.
  intros Hfit. unfold Option_assign.
  destruct (String.eqb (type o) "") eqn:E0; [done|].
  destruct (negb (String.eqb (type o) "button")
            && negb (String.eqb (type o) "string") && String.eqb v "");
    [by intros [= <- _ _]|].
  destruct (String.eqb (type o) "check") eqn:Echeck.
  { destruct (String.eqb_spec v "true") as [Hvt|Hvt];
      destruct (String.eqb_spec v "false") as [Hvf|Hvf];
      cbn [negb andb]; try (by intros [= <- _ _]).
    all: apply String.eqb_eq in Echeck as Hty; rewrite Hty;
      cbn [String.eqb Ascii.eqb Bool.eqb andb negb];
      intros [= <- _ _]; unfold fits; cbn [type with_currentValue];
      rewrite Echeck; cbn [currentValue]; first [by left | by right]. }
  cbn [andb].
  destruct (String.eqb (type o) "spin") eqn:Espin.
  { destruct (stof v) as [x|] eqn:Hx; [|done].
    destruct (float_lt x (float_of_int (min o))) eqn:Hlo; cbn [orb];
      [by intros [= <- _ _]|].
    destruct (float_lt (float_of_int (max o)) x) eqn:Hhi;
      [by intros [= <- _ _]|].
    apply String.eqb_eq in Espin as Hty; rewrite Hty;
      cbn [String.eqb Ascii.eqb Bool.eqb andb negb].
    intros [= <- _ _]. unfold fits. cbn [type with_currentValue].
    rewrite Echeck, Espin. cbn [currentValue min max]. by exists x. }
  destruct (String.eqb (type o) "combo") eqn:Ecombo.
  { pose proof (combo_count v (tokens (defaultValue o)) c) as Hcount.
    destruct (shl_all _ _) as [comboMap c1]. cbn [fst] in Hcount.
    rewrite Hcount.
    destruct (bool_decide _) eqn:Hex; cbn [negb orb];
      [|by intros [= <- _ _]].
    destruct (String.eqb_spec v "var") as [Hvar|Hvar];
      [by intros [= <- _ _]|].
    apply String.eqb_eq in Ecombo as Hty; rewrite Hty;
      cbn [String.eqb Ascii.eqb Bool.eqb andb negb].
    intros [= <- _ _]. unfold fits. cbn [type with_currentValue].
    rewrite Echeck, Espin, Ecombo. cbn [currentValue defaultValue].
    split; [done|].
    apply bool_decide_eq_true, Exists_exists in Hex. exact Hex. }
  destruct (negb (String.eqb (type o) "button"));
    intros [= <- _ _]; [|done].
  unfold fits. cbn [type with_currentValue].
  by rewrite Echeck, Espin, Ecombo.
Qed.

(** X28.  What a combo option accepts.  A non-empty text is stored, and
    the action run, exactly when the text is not "var" and is, letter
    case apart, one of the words of the default value; the stored
    value then compares equal ([Option::operator==]) to that word. *)
Theorem combo_accepts_words_of_its_default (v : string) (o : Option)
    (c : Z) :
  type o = "combo"%string → v ≠ ""%string →
  ∃ c',
    Option_assign v o c
    = (if bool_decide (Exists (λ t, lowered t = lowered v)
                              (tokens (defaultValue o)))
          && negb (String.eqb v "var")
       then Returned (with_currentValue v o) c' (on_change o)
       else Returned o c' None)
    ∧ ∀ t, lowered t = lowered v →
           Option_eq (with_currentValue v o) t = Done true.
Proof.
  intros Hty Hv. unfold Option_assign. rewrite Hty.
  cbn [String.eqb Ascii.eqb Bool.eqb andb negb].
  destruct (String.eqb_spec v "") as [?|_]; [done|]. cbn [andb].
  pose proof (combo_count v (tokens (defaultValue o)) c) as Hcount.
  destruct (shl_all _ _) as [comboMap c1]. cbn [fst] in Hcount.
  exists c1. rewrite Hcount. split.
  - destruct (bool_decide _); cbn [negb orb andb]; [|done].
    by destruct (String.eqb v "var").
  - intros t Ht. unfold Option_eq. cbn [type with_currentValue].
    rewrite Hty. cbn [String.eqb Ascii.eqb Bool.eqb andb negb currentValue].
    f_equal. change (equivalent v t = true). by apply equivalent_lowered.
Qed.
End UCIProperties.

(** ** Tune::next *)

Section TuneProperties.
Import Tune.

Lemma append_cons (c : ascii) (a b : string) :
  String c a +:+ b = String c (a +:+ b).
Proof. reflexivity. Qed.

Lemma count_app (c : ascii) (a b : string) :
  count c (a +:+ b) = count c a + count c b.
Proof.
  induction a as [|c' a IH]; [done|].
  rewrite append_cons. cbn [count]. rewrite IH. lia.
Qed.

Lemma append_empty_r (a : string) : a +:+ EmptyString = a.
Proof.
  induction a as [|c a IH]; [done|]. by rewrite append_cons, IH.
Qed.

Lemma substr_to_comma_all (names : string) :
  count "," names = 0 → substr_to_comma names = names.
Proof.
  induction names as [|c r IH]; simpl; [done|].
  destruct (Ascii.eqb c ","); intros Hc.
  - assert (0 ≤ count "," r); [|lia].
    clear. induction r as [|c' r IH]; simpl; [done|].
    destruct (Ascii.eqb c' ","); lia.
  - f_equal. apply IH. lia.
Qed.

Lemma erase_front_all (n : nat) (s : string) :
  (String.length s ≤ n)%nat → erase_front n s = EmptyString.
Proof.
  revert s. induction n as [|n IH]; intros [|c s]; simpl; try done; try lia.
  intros Hn. apply IH. lia.
Qed.


(** X29.  [Tune::next] on a list whose first entry, read as one word,
    has as many opening as closing parentheses returns that word after
    one round, and with [pop] the entry and its comma are gone from the
    list.  When the counts differ and the list is not popped, or
    holds no comma, the loop never ends: the same text is appended, or
    nothing is left to append, in every further round. *)
Theorem next_returns_first_word_or_loops (names : string) (pop : bool) :
  let w := extract (substr_to_comma names) in
  (count "(" w = count ")" w →
   ∀ fuel,
     next (S fuel) names pop
     = Some (w, if pop
                then erase_front
                       (String.length (substr_to_comma names) + 1) names
                else names))
  ∧ (count "(" w ≠ count ")" w →
     pop = false ∨ count "," names = 0 →
     ∀ fuel, next fuel names pop = None).
Proof.
  intros w. split.
  - intros Hbal fuel. unfold next. cbn [next_loop].
    change (EmptyString +:+ extract (substr_to_comma names)) with w.
    rewrite Hbal, Z.sub_diag. done.
  - intros Hne Hcase fuel. unfold next.
    destruct pop; [destruct Hcase as [?|Hcomma]; [done|] | clear Hcase].
    2:{ assert (∀ fuel name k,
                0 ≤ k →
                count "(" name - count ")" name
                = k * (count "(" w - count ")" w) →
                next_loop fuel names name false = None) as Hloop.
      { clear fuel. induction fuel as [|fuel IH]; intros name k Hk Hname;
          [done|].
        cbn [next_loop]. fold w.
        assert (count "(" (name +:+ w) - count ")" (name +:+ w)
                = (k + 1) * (count "(" w - count ")" w)) as Hnext
          by (rewrite !count_app; lia).
        destruct (Z.eqb_spec (count "(" (name +:+ w)
                              - count ")" (name +:+ w)) 0) as [Hz|_].
        - rewrite Hnext in Hz. nia.
        - apply (IH _ (k + 1)); [lia | done]. }
      apply (Hloop fuel EmptyString 0); [done|]. simpl. lia. }
    assert (∀ fuel name,
                count "(" name ≠ count ")" name →
                next_loop fuel EmptyString name true = None) as Hempty.
      { clear. induction fuel as [|fuel IH]; intros name Hname; [done|].
        cbn [next_loop substr_to_comma erase_front String.length].
        change (extract EmptyString) with EmptyString.
        rewrite append_empty_r.
        destruct (Z.eqb_spec (count "(" name - count ")" name) 0);
          [lia | by apply IH]. }
      destruct fuel as [|fuel]; [done|]. cbn [next_loop]. fold w.
      change (EmptyString +:+ w) with w.
      destruct (Z.eqb_spec (count "(" w - count ")" w) 0); [lia|].
      rewrite substr_to_comma_all by done.
      rewrite erase_front_all by lia. by apply Hempty.
Qed.
End TuneProperties.

(** * Instances and counterexamples

    The parametric results above at the upstream constants, in a world
    with one position. *)

Lemma get_best_thread_five_step_selection_witness :
  spec_min_score (three_workers (blank_thread []) e2e4 d2d4 [] [] []) = 50
  ∧ get_best_thread (H := upstream_types_h)
      (three_workers (blank_thread []) e2e4 d2d4 [] [] [])
    = spec_best_thread (H := upstream_types_h)
        (three_workers (blank_thread []) e2e4 d2d4 [] [] [])
  ∧ get_best_thread (H := upstream_types_h)
      (three_workers (blank_thread []) e2e4 d2d4 [] [] [])
    = Some 0%nat.
Proof.
  destruct (get_best_thread_five_step_selection (H := upstream_types_h)
              (three_workers (blank_thread []) e2e4 d2d4 [] [] []))
    as (_ & _ & _ & _ & _ & Hsel & _).
  - split; vm_compute; congruence.
  - done.
  - vm_compute. done.
  - repeat constructor; by eexists _, _.
  - repeat constructor; vm_compute; congruence.
  - split; [reflexivity|]. split; [exact Hsel|].
    rewrite Hsel. reflexivity.
Defined.

Lemma three_workers_selection_witness :
  map (thread_value 50)
    (three_workers (blank_thread []) e2e4 d2d4 [e7e5; g1f3] [e7e5; g1f3] [])
  = [Some 640; Some 648; Some 112]
  ∧ get_best_thread (H := upstream_types_h)
      (three_workers (blank_thread []) e2e4 d2d4 [e7e5; g1f3] [e7e5; g1f3] [])
    = Some 1%nat
  ∧ get_best_thread (H := upstream_types_h)
      (three_workers (blank_thread []) e2e4 d2d4 [] [] [])
    = Some 0%nat.
Proof.
  destruct (three_workers_selection (H := upstream_types_h) (blank_thread [])
              e2e4 d2d4 [e7e5; g1f3] [e7e5; g1f3] [])
    as (_ & Hvalues & _ & Hbest); [vm_compute; congruence..|].
  destruct (three_workers_selection (H := upstream_types_h) (blank_thread [])
              e2e4 d2d4 [] [] [])
    as (_ & _ & _ & Hbest'); [vm_compute; congruence..|].
  split; [exact Hvalues|]. split; [exact Hbest | exact Hbest'].
Defined.

(** C2 as written fails: the second value is 648, the third 112, and
    with PVs of three moves the second worker is selected. *)
Lemma three_workers_written_outcome_fails :
  ¬ spec_scenario_outcome (H := upstream_types_h)
      (three_workers (blank_thread []) e2e4 d2d4
         [e7e5; g1f3] [e7e5; g1f3] [])
      e2e4 d2d4.
Proof.
  intros (_ & Hvalues & _ & _). vm_compute in Hvalues. congruence.
Qed.

Lemma bitboards_init_runs_exactly_once_witness :
  OnceInit.all_released
    (OnceInit.run (OnceInit.one_after_another 10) (OnceInit.start 10)) = true
  ∧ OnceInit.init_calls
      (OnceInit.run (OnceInit.one_after_another 10) (OnceInit.start 10))
    = 1%nat.
Proof.
  destruct (bitboards_init_runs_exactly_once 10
              (OnceInit.one_after_another 10))
    as (_ & _ & Hdone & _ & _ & Hall).
  split; [exact Hall|]. apply Hdone; [exact Hall | lia].
Defined.


Lemma dtor_exit_shares_the_search_flag_witness :
  Park.client
    (Park.run [Park.Client; Park.Client; Park.Client; Park.Worker; Park.Client]
       (Park.parked_idle Park.Thread_dtor_body)) = []
  ∧ Park.worker
      (Park.run [Park.Client; Park.Client; Park.Client; Park.Worker; Park.Client]
         (Park.parked_idle Park.Thread_dtor_body)) = Park.Returned.
Proof.
  destruct (dtor_exit_shares_the_search_flag
              [Park.Client; Park.Client; Park.Client; Park.Worker; Park.Client])
    as (_ & _ & _ & _ & _ & Hret & _).
  split; [reflexivity|]. apply Hret. reflexivity.
Defined.

(** C5 as written fails: the destructor's exit request raises the very
    flag that means "start a search". *)
Lemma exit_request_raises_search_flag :
  ¬ Park.spec_exit_not_a_search_signal.
Proof.
  intros Hspec.
  specialize (Hspec {| exit := false; searching := false |}).
  vm_compute in Hspec. congruence.
Qed.

Lemma start_thinking_transfers_resets_wakes_main_witness :
  ∃ tp',
    ThreadPool_start_thinking (H0 := two_move_world) () (Some [()]) []
      false (small_pool [e2e4; d2d4])
    = Done (tp', None)
    ∧ setupStates tp' = Some [()]
    ∧ map (λ th, searching (sync th)) (threads tp') = [true; false].
Proof.
  destruct (start_thinking_transfers_resets_wakes_main
              (H0 := two_move_world) () [()] [] false
              (small_pool [e2e4; d2d4])
              (blank_main_thread [e2e4; d2d4]) blank_main
              [blank_thread [e2e4; d2d4]] ())
    as (tp' & m' & rest' & Hrun & Hsetup & _ & Hths & Hm & _ & Hrest);
    [reflexivity..|].
  exists tp'. split; [exact Hrun|]. split; [exact Hsetup|].
  rewrite Hths. simpl. rewrite Hm. f_equal.
  apply (f_equal (map searching)) in Hrest.
  rewrite !map_map in Hrest. exact Hrest.
Defined.



Lemma start_thinking_ranks_nonempty_root_moves_witness :
  ∃ r,
    ThreadPool_start_thinking (H0 := two_move_world) () (Some [()]) [d2d4]
      false (small_pool [e2e4; d2d4])
    = Done r
    ∧ calls r.1
      = [CallRankRootMoves (H0 := two_move_world) ()
           [RootMove_of (Collaborators := two_move_world) d2d4]].
Proof.
  destruct (start_thinking_ranks_nonempty_root_moves
              (H0 := two_move_world) () (Some [()]) [d2d4] false
              (small_pool [e2e4; d2d4]) _ eq_refl) as [Hcalls _].
  eexists. split; [reflexivity|]. exact Hcalls.
Defined.

(** C8 as written fails: with no legal move at the root the endgame
    tables are not consulted. *)
Lemma start_thinking_without_root_moves_skips_ranking :
  ¬ spec_rank_once (H0 := no_move_world) () (Some [()]) [] false (small_pool []).
Proof.
  intros Hspec. specialize (Hspec _ eq_refl). vm_compute in Hspec. congruence.
Qed.

(** ** Instances of the further properties *)

Lemma nodes_searched_sum_witness :
  nodes_searched (H0 := two_move_world) counted_pool = 1500.
Proof.
  rewrite (nodes_searched_sum (H0 := two_move_world) counted_pool).
  - reflexivity.
  - repeat constructor; vm_compute; congruence.
  - vm_compute. reflexivity.
Defined.



Lemma clear_idempotent_and_local_witness :
  ∃ tp1,
    ThreadPool_clear (H := upstream_types_h) (small_pool [e2e4; d2d4])
    = Done tp1
    ∧ ThreadPool_clear (H := upstream_types_h) tp1 = Done tp1.
Proof.
  destruct (ThreadPool_clear (H := upstream_types_h)
              (small_pool [e2e4; d2d4])) as [tp1| | |] eqn:Hclear;
    [|vm_compute in Hclear; congruence..].
  destruct (clear_idempotent_and_local (H := upstream_types_h)
              (small_pool [e2e4; d2d4]) tp1 Hclear) as (Hidem & _).
  by exists tp1.
Defined.

Lemma start_thinking_again_reuses_history_witness :
  ∃ tp1,
    ThreadPool_start_thinking (H0 := two_move_world) () (Some [()]) []
      false (small_pool [e2e4; d2d4]) = Done (tp1, None)
    ∧ ThreadPool_start_thinking (H0 := two_move_world) () None [d2d4]
        true tp1 = Blocks.
Proof.
  eexists. split; [reflexivity|].
  eapply (start_thinking_again_reuses_history (H0 := two_move_world)
            () () (Some [()]) [] [d2d4] false true
            (small_pool [e2e4; d2d4])).
  reflexivity.
Defined.


Lemma get_best_thread_in_pool_witness :
  get_best_thread (H := upstream_types_h)
    (three_workers (blank_thread []) e2e4 d2d4 [] [] []) = Some 0%nat
  ∧ is_Some (three_workers (blank_thread []) e2e4 d2d4 [] [] [] !! 0%nat).
Proof.
  assert (get_best_thread (H := upstream_types_h)
            (three_workers (blank_thread []) e2e4 d2d4 [] [] [])
          = Some 0%nat) as Hbest by (vm_compute; reflexivity).
  split; [exact Hbest|].
  exact (get_best_thread_in_pool (H := upstream_types_h) _ _ Hbest).
Defined.

Lemma get_best_thread_never_picks_lost_line_witness :
  get_best_thread (H := upstream_types_h)
    [snapshot (blank_thread []) 100 10 [e2e4];
     snapshot (blank_thread []) (-31900) 30 [d2d4]] = Some 0%nat
  ∧ VALUE_TB_LOSS_IN_MAX_PLY (Types_h := upstream_types_h)
    < first_score (snapshot (blank_thread []) 100 10 [e2e4]).
Proof.
  assert (get_best_thread (H := upstream_types_h)
            [snapshot (blank_thread []) 100 10 [e2e4];
             snapshot (blank_thread []) (-31900) 30 [d2d4]]
          = Some 0%nat) as Hbest by (vm_compute; reflexivity).
  split; [exact Hbest|].
  apply (get_best_thread_never_picks_lost_line (H := upstream_types_h)
           [snapshot (blank_thread []) 100 10 [e2e4];
            snapshot (blank_thread []) (-31900) 30 [d2d4]]
           0%nat (snapshot (blank_thread []) 100 10 [e2e4])
           (snapshot (blank_thread []) 100 10 [e2e4]));
    [vm_compute; reflexivity | reflexivity | vm_compute; reflexivity
    | exact Hbest | reflexivity].
Defined.

Lemma get_best_thread_picks_shortest_mate_witness :
  get_best_thread (H := upstream_types_h)
    [snapshot (blank_thread []) 31900 10 [e2e4];
     snapshot (blank_thread []) 31950 9 [d2d4];
     snapshot (blank_thread []) 31950 12 [e2e4]] = Some 1%nat
  ∧ ∃ bt,
      [snapshot (blank_thread []) 31900 10 [e2e4];
       snapshot (blank_thread []) 31950 9 [d2d4];
       snapshot (blank_thread []) 31950 12 [e2e4]] !! 1%nat = Some bt
      ∧ ∀ th, th ∈ [snapshot (blank_thread []) 31900 10 [e2e4];
                    snapshot (blank_thread []) 31950 9 [d2d4];
                    snapshot (blank_thread []) 31950 12 [e2e4]] →
              first_score th ≤ first_score bt.
Proof.
  assert (get_best_thread (H := upstream_types_h)
            [snapshot (blank_thread []) 31900 10 [e2e4];
             snapshot (blank_thread []) 31950 9 [d2d4];
             snapshot (blank_thread []) 31950 12 [e2e4]]
          = Some 1%nat) as Hbest by (vm_compute; reflexivity).
  split; [exact Hbest|].
  destruct (get_best_thread_picks_shortest_mate (H := upstream_types_h)
              [snapshot (blank_thread []) 31900 10 [e2e4];
               snapshot (blank_thread []) 31950 9 [d2d4];
               snapshot (blank_thread []) 31950 12 [e2e4]]
              1%nat (snapshot (blank_thread []) 31900 10 [e2e4]))
    as (bt & Hbt & Hmax & _).
  - repeat constructor; vm_compute; congruence.
  - reflexivity.
  - vm_compute. congruence.
  - exact Hbest.
  - by exists bt.
Defined.

Lemma idle_flag_means_parked_witness :
  Park.worker
    (Park.run [Park.Worker; Park.Client; Park.Client; Park.Worker;
               Park.Worker; Park.Worker]
       (ParkHistory.spawned [Park.CStart; Park.CWait])) = Park.Parked.
Proof.
  destruct (idle_flag_means_parked [Park.CStart; Park.CWait]
              [Park.Worker; Park.Client; Park.Client; Park.Worker;
               Park.Worker; Park.Worker]) as [Hparked _].
  apply Hparked. reflexivity.
Defined.

Lemma rounds_run_one_search_each_witness :
  ParkHistory.searches
    [Park.Client; Park.Worker; Park.Worker; Park.Worker; Park.Client;
     Park.Client; Park.Worker; Park.Worker; Park.Worker; Park.Client]
    (Park.parked_idle (ParkHistory.rounds 2)) = 2%nat.
Proof.
  destruct (rounds_run_one_search_each 2
              [Park.Client; Park.Worker; Park.Worker; Park.Worker;
               Park.Client; Park.Client; Park.Worker; Park.Worker;
               Park.Worker; Park.Client]) as [Hdone _].
  apply Hdone. reflexivity.
Defined.

Lemma dtor_of_searching_thread_can_hang_witness :
  Park.client
    (Park.run [Park.Worker; Park.Client; Park.Worker]
       (Park.run [Park.Client; Park.Client; Park.Worker; Park.Worker]
          {| Park.flags := {| exit := false; searching := true |};
             Park.worker := Park.InSearch;
             Park.client := ParkHistory.Thread_dtor_body_ndebug;
             Park.aborted := false |}))
  = [Park.CJoin].
Proof.
  destruct (dtor_of_searching_thread_can_hang Park.InSearch
              [Park.Worker; Park.Client; Park.Worker])
    as (Hstuck & Hjoin & _); [by left|].
  rewrite Hstuck. exact Hjoin.
Defined.

Lemma late_sessions_do_not_init_again_witness :
  OnceInit.init_calls
    (OnceInitLater.play
       [OnceInitLater.Start; OnceInitLater.Turn 0; OnceInitLater.Turn 0;
        OnceInitLater.Turn 0; OnceInitLater.Turn 0; OnceInitLater.Start;
        OnceInitLater.Turn 1; OnceInitLater.Turn 1; OnceInitLater.Turn 1;
        OnceInitLater.Turn 1]
       (OnceInit.start 0)) = 1%nat.
Proof.
  destruct (late_sessions_do_not_init_again
              [OnceInitLater.Start; OnceInitLater.Turn 0;
               OnceInitLater.Turn 0; OnceInitLater.Turn 0;
               OnceInitLater.Turn 0; OnceInitLater.Start;
               OnceInitLater.Turn 1; OnceInitLater.Turn 1;
               OnceInitLater.Turn 1; OnceInitLater.Turn 1])
    as (_ & Honce & _).
  apply (Honce 1%nat OnceInit.Released); reflexivity.
Defined.

Lemma pipe_wrapper_descriptor_balance_witness :
  fresh_answers
    {| Session.pipe_fd_in := Some (3, 4); Session.pipe_fd_out := Some (5, 6);
       Session.pthread_create_ok := false; Session.pthread_join_ok := true |}
    {[0; 1; 2]}
  ∧ (Session.pipe_wrapper
       {| Session.pipe_fd_in := Some (3, 4);
          Session.pipe_fd_out := Some (5, 6);
          Session.pthread_create_ok := false;
          Session.pthread_join_ok := true |} {[0; 1; 2]}).2
    = {[0; 1; 2]} ∪ {[3; 6]}.
Proof.
  assert (fresh_answers
            {| Session.pipe_fd_in := Some (3, 4);
               Session.pipe_fd_out := Some (5, 6);
               Session.pthread_create_ok := false;
               Session.pthread_join_ok := true |} {[0; 1; 2]}) as Hfresh.
  { split; [|split]; simpl.
    - set_solver.
    - set_solver.
    - apply (bool_decide_unpack _). vm_compute. exact I. }
  split; [exact Hfresh|].
  exact (proj1 (pipe_wrapper_descriptor_balance _ _ Hfresh)).
Defined.

Lemma CaseInsensitiveLess_strict_weak_order_witness :
  UCI.CaseInsensitiveLess (H := decimal_platform) "hash" "Threads" = true.
Proof.
  destruct (CaseInsensitiveLess_strict_weak_order (H := decimal_platform))
    as (_ & Htrans & _).
  apply (Htrans "hash" "SKILL level" "Threads")%string; reflexivity.
Defined.

Lemma subscript_then_find_witness :
  UCI.ordered (H := decimal_platform)
    (UCI.init (H := decimal_platform) ([], 0)).1
  ∧ UCI.OptionsMap_count (H := decimal_platform) "threads"
      (UCI.subscript (H := decimal_platform) "threads"
         (UCI.with_currentValue "4")
         (UCI.init (H := decimal_platform) ([], 0)).1) = 1.
Proof.
  assert (UCI.ordered (H := decimal_platform)
            (UCI.init (H := decimal_platform) ([], 0)).1) as Hord
    by (apply shl_all_ordered; constructor).
  split; [exact Hord|].
  destruct (subscript_then_find (H := decimal_platform) "threads"
              (UCI.with_currentValue "4")
              (UCI.init (H := decimal_platform) ([], 0)).1 Hord)
    as (_ & _ & Hcount & _).
  exact Hcount.
Defined.

Lemma listing_follows_the_counter_witness :
  UCI.print
    (UCI.shl_all (H := decimal_platform)
       [("Threads"%string, threads_option);
        ("Analysis Contempt"%string, contempt_option)] ([], 1)).1
  = Done (take (Z.to_nat (Z.of_nat 2 - 1))
            (UCI.stamped 1 [("Threads"%string, threads_option);
                            ("Analysis Contempt"%string, contempt_option)])).
Proof.
  destruct (listing_follows_the_counter (H := decimal_platform)
              [("Threads"%string, threads_option);
               ("Analysis Contempt"%string, contempt_option)] 1)
    as (Hprint & _).
  - apply (bool_decide_unpack _). vm_compute. exact I.
  - vm_compute. split; congruence.
  - vm_compute. congruence.
  - exact Hprint.
Defined.

Lemma init_listing_witness :
  ∃ listed,
    UCI.print
      (UCI.init (H := decimal_platform) ([], 20)).1 = Done listed
    ∧ listed = [].
Proof.
  destruct (init_listing (H := decimal_platform) 20)
    as (listed & Hprint & _ & _ & Hnone & _).
  - vm_compute. split; congruence.
  - vm_compute. congruence.
  - exists listed. split; [exact Hprint|]. apply Hnone. lia.
Defined.

Lemma assign_changes_value_or_nothing_witness :
  UCI.type threads_option ≠ ""%string
  ∧ UCI.Option_assign (H := decimal_platform) "many" threads_option 0
    = UCI.Thrown.
Proof.
  assert (UCI.type threads_option ≠ ""%string) as Hty by done.
  split; [exact Hty|].
  pose proof (assign_changes_value_or_nothing (H := decimal_platform)
                "many" threads_option 0 Hty) as Hcases.
  destruct (UCI.Option_assign (H := decimal_platform) "many"
              threads_option 0) eqn:Hrun;
    [vm_compute in Hrun; congruence | reflexivity | destruct Hcases].
Defined.

Lemma assign_moves_counter_for_combo_only_witness :
  UCI.Option_assign (H := decimal_platform) "green" contempt_option 7
  = UCI.Returned contempt_option 16 None
  ∧ 16 = if String.eqb (UCI.type contempt_option) "combo"
            && negb (String.eqb "green" "")
         then UCI.size_t (H := decimal_platform)
                (7 + Z.of_nat (length (UCI.tokens
                                         (UCI.defaultValue contempt_option))))
         else 7.
Proof.
  assert (UCI.Option_assign (H := decimal_platform) "green"
            contempt_option 7
          = UCI.Returned contempt_option 16 None) as Hrun
    by (vm_compute; reflexivity).
  split; [exact Hrun|].
  apply (assign_moves_counter_for_combo_only (H := decimal_platform)
           "green" contempt_option contempt_option 7 16 None);
    [vm_compute; split; congruence | exact Hrun].
Defined.

Lemma assign_keeps_fit_witness :
  UCI.fits (H := decimal_platform) threads_option
  ∧ UCI.Option_assign (H := decimal_platform) "5" threads_option 0
    = UCI.Returned (UCI.with_currentValue "5" threads_option) 0
        (Some UCI.on_threads)
  ∧ UCI.fits (H := decimal_platform)
      (UCI.with_currentValue "5" threads_option).
Proof.
  assert (UCI.fits (H := decimal_platform) threads_option) as Hfit.
  { vm_compute. eexists. split; [reflexivity|]. split; reflexivity. }
  split; [exact Hfit|]. split; [reflexivity|].
  apply (assign_keeps_fit (H := decimal_platform) "5" threads_option
           (UCI.with_currentValue "5" threads_option) 0 0
           (Some UCI.on_threads) Hfit).
  reflexivity.
Defined.

Lemma combo_accepts_words_of_its_default_witness :
  ∃ c',
    UCI.Option_assign (H := decimal_platform) "WHITE" contempt_option 0
    = UCI.Returned (UCI.with_currentValue "WHITE" contempt_option) c' None
    ∧ UCI.Option_eq (H := decimal_platform)
        (UCI.with_currentValue "WHITE" contempt_option) "White"
      = Done true.
Proof.
  destruct (combo_accepts_words_of_its_default (H := decimal_platform)
              "WHITE" contempt_option 0) as (c' & Hrun & Heq);
    [reflexivity | done |].
  exists c'. split.
  - rewrite Hrun. rewrite bool_decide_eq_true_2; [reflexivity|].
    apply Exists_exists. exists "White"%string.
    split; [|reflexivity]. vm_compute. repeat constructor.
  - apply Heq. reflexivity.
Defined.

Lemma next_returns_first_word_or_loops_witness :
  Tune.next 1 " mA , B(1, 2)" true = Some ("mA"%string, " B(1, 2)"%string)
  ∧ Tune.next 5 "B(1, 2)" false = None.
Proof.
  destruct (next_returns_first_word_or_loops " mA , B(1, 2)" true)
    as [Hret _].
  destruct (next_returns_first_word_or_loops "B(1, 2)" false)
    as [_ Hloop].
  split.
  - apply (Hret eq_refl 0%nat).
  - apply Hloop; [done | by left].
Defined.
